(** * Widmark-coefficient estimators: a model of [coefficient.cpp]

    The C++ file declares an abstract class [abc_Widmark] with two pure
    virtual methods, [forward_F] and [forward_M], and a non-virtual
    [operator()] that dispatches on a [Sex] tag.  Six concrete classes
    override the two methods with closed-form expressions over [double].
    A [main] function prints the twelve results for one sample input.

    [double] is modelled by Rocq's primitive binary64 floats, whose
    operations are the IEEE 754 ones (round to nearest, ties to even);
    decimal literals are read to the nearest binary64 value, as a C++
    compiler reads them.  The model has a single NaN: payloads and the
    sign of a NaN are not represented. *)

From Stdlib Require Import ZArith Lia List String Bool Floats.
Import ListNotations.

Set Warnings "-inexact-float".

Local Open Scope float_scope.

(** ** Exceptions of [<stdexcept>] *)

(** The classes of [<stdexcept>] and their common base. *)
Inductive exception_class : Set :=
| std_exception
| std_logic_error
| std_invalid_argument
| std_domain_error
| std_length_error
| std_out_of_range
| std_runtime_error
| std_range_error
| std_overflow_error
| std_underflow_error.

(** The direct base class, [None] for the root. *)
Definition base_class (c : exception_class) : option exception_class :=
  match c with
  | std_exception => None
  | std_logic_error | std_runtime_error => Some std_exception
  | std_invalid_argument | std_domain_error
  | std_length_error | std_out_of_range => Some std_logic_error
  | std_range_error | std_overflow_error
  | std_underflow_error => Some std_runtime_error
  end.

Definition exception_class_eqb (c d : exception_class) : bool :=
  match c, d with
  | std_exception, std_exception
  | std_logic_error, std_logic_error
  | std_invalid_argument, std_invalid_argument
  | std_domain_error, std_domain_error
  | std_length_error, std_length_error
  | std_out_of_range, std_out_of_range
  | std_runtime_error, std_runtime_error
  | std_range_error, std_range_error
  | std_overflow_error, std_overflow_error
  | std_underflow_error, std_underflow_error => true
  | _, _ => false
  end.

(** [derives_from c d]: an object of class [c] binds to a handler
    [catch (const d &)].  The hierarchy has depth two. *)
Definition derives_from (c d : exception_class) : bool :=
  exception_class_eqb c d
  || match base_class c with
     | None => false
     | Some b =>
         exception_class_eqb b d
         || match base_class b with
            | None => false
            | Some r => exception_class_eqb r d
            end
     end.

(** An exception object: its dynamic class and the text of [what()]. *)
Record exception : Set := mk_exception
  { exn_class : exception_class;
    what : string }.

(** [std::invalid_argument(msg)] *)
Definition invalid_argument (msg : string) : exception :=
  {| exn_class := std_invalid_argument; what := msg |}.

(** The outcome of a call: a thrown exception or a returned value. *)
Inductive outcome (A : Type) : Type :=
| Throw (e : exception)
| Return (a : A).
Arguments Throw {A} e.
Arguments Return {A} a.

(** ** [enum class Sex { M, F }] *)

(** A scoped enumeration without an enum-base has underlying type [int];
    every [int] is a value of the type, and only 0 and 1 are named. *)
Module Sex.
Definition t : Set := Z.
Definition M : t := 0%Z.
Definition F : t := 1%Z.
(** One of the two enumerators. *)
Definition valid (s : t) : bool := ((s =? F) || (s =? M))%Z.
End Sex.

(** ** [class abc_Widmark] *)

(** The two pure virtual methods are the fields; the classes have no data
    members and the methods are [const], so an object is its method table. *)
Record abc_Widmark : Type := mk_abc_Widmark
  { forward_F : float -> float -> float -> outcome float;
    forward_M : float -> float -> float -> outcome float }.

(** [double operator()(Sex sex, double H, double W, double g) const] *)
Definition call (self : abc_Widmark) (sex : Sex.t) (H W g : float)
  : outcome float :=
  if (sex =? Sex.F)%Z then forward_F self H W g
  else if (sex =? Sex.M)%Z then forward_M self H W g
  else Throw (invalid_argument "Invalid sex").

(** ** The six concrete classes *)

Definition Widmark : abc_Widmark :=
  {| forward_F := fun _ _ _ => Return 0.55;
     forward_M := fun _ _ _ => Return 0.68 |}.

Definition Watson : abc_Widmark :=
  {| forward_F := fun H W g =>
       Return (0.29218 + (12.666 * H - 2.4846) / W);
     forward_M := fun H W g =>
       Return (0.39834 + (12.725 * H - 0.11275 * g + 2.8993) / W) |}.

Definition Forrest : abc_Widmark :=
  {| forward_F := fun H W _ =>
       Return (0.8736 - 0.0124 * W / (H * H));
     forward_M := fun H W _ =>
       Return (1.0178 - 0.012127 * W / (H * H)) |}.

Definition Seidl : abc_Widmark :=
  {| forward_F := fun H W _ =>
       Return (0.31223 - 0.006446 * W + 0.4466 * H);
     forward_M := fun H W _ =>
       Return (0.31608 - 0.004821 * W + 0.4632 * H) |}.

Definition Ulrich : abc_Widmark :=
  {| forward_F := fun _ _ _ =>
       Throw (invalid_argument "No estimator available");
     forward_M := fun H W _ =>
       Return (0.715 - 0.00462 * W + 0.22 * H) |}.

(** The literal [1] in [(1 / W)] is an [int], converted to [double]. *)
Definition Average : abc_Widmark :=
  {| forward_F := fun H W g =>
       Return (0.50766 + 0.11165 * H
               - W * (0.001612 + 0.0031 / (H * H))
               - (1 / W) * (0.62115 - 3.1665 * H));
     forward_M := fun H W g =>
       Return (0.62544 + 0.13664 * H
               - W * (0.00189 + 0.002425 / (H * H))
               + (1 / W) * (0.57986 + 2.545 * H - 0.02255 * g)) |}.

(** The names under which the binding module registers the classes. *)
Inductive strategy : Set :=
| SWidmark | SWatson | SForrest | SSeidl | SUlrich | SAverage.

Definition instance (s : strategy) : abc_Widmark :=
  match s with
  | SWidmark => Widmark
  | SWatson => Watson
  | SForrest => Forrest
  | SSeidl => Seidl
  | SUlrich => Ulrich
  | SAverage => Average
  end.

Definition strategies : list strategy :=
  [SWidmark; SWatson; SForrest; SSeidl; SUlrich; SAverage].

(** ** The method bodies as syntax *)

(** Claims about which operators a body contains need the body itself.
    [body_F] and [body_M] transcribe the [return] and [throw] statements;
    [exec_body_F] and [exec_body_M] below show that executing them is
    what the methods above compute. *)
Inductive expr : Set :=
| Lit (c : float)
| VarH
| VarW
| Varg
| Add (a b : expr)
| Sub (a b : expr)
| Mul (a b : expr)
| Div (a b : expr).

Inductive stmt : Set :=
| SReturn (e : expr)
| SThrow (x : exception).

Declare Scope expr_scope.
Delimit Scope expr_scope with E.
Bind Scope expr_scope with expr.
Notation "a + b" := (Add a b) : expr_scope.
Notation "a - b" := (Sub a b) : expr_scope.
Notation "a * b" := (Mul a b) : expr_scope.
Notation "a / b" := (Div a b) : expr_scope.
Notation "# c" := (Lit c%float) (at level 1, format "# c") : expr_scope.

Fixpoint eval (e : expr) (H W g : float) : float :=
  match e with
  | Lit c => c
  | VarH => H
  | VarW => W
  | Varg => g
  | Add a b => eval a H W g + eval b H W g
  | Sub a b => eval a H W g - eval b H W g
  | Mul a b => eval a H W g * eval b H W g
  | Div a b => eval a H W g / eval b H W g
  end.

Definition exec (b : stmt) (H W g : float) : outcome float :=
  match b with
  | SReturn e => Return (eval e H W g)
  | SThrow x => Throw x
  end.

Definition body_F (s : strategy) : stmt :=
  let H := VarH in let W := VarW in let g := Varg in
  match s with
  | SWidmark => SReturn (#0.55)
  | SWatson => SReturn (#0.29218 + (#12.666 * H - #2.4846) / W)
  | SForrest => SReturn (#0.8736 - #0.0124 * W / (H * H))
  | SSeidl => SReturn (#0.31223 - #0.006446 * W + #0.4466 * H)
  | SUlrich => SThrow (invalid_argument "No estimator available")
  | SAverage =>
      SReturn (#0.50766 + #0.11165 * H
               - W * (#0.001612 + #0.0031 / (H * H))
               - (#1 / W) * (#0.62115 - #3.1665 * H))
  end%E.

Definition body_M (s : strategy) : stmt :=
  let H := VarH in let W := VarW in let g := Varg in
  match s with
  | SWidmark => SReturn (#0.68)
  | SWatson =>
      SReturn (#0.39834 + (#12.725 * H - #0.11275 * g + #2.8993) / W)
  | SForrest => SReturn (#1.0178 - #0.012127 * W / (H * H))
  | SSeidl => SReturn (#0.31608 - #0.004821 * W + #0.4632 * H)
  | SUlrich => SReturn (#0.715 - #0.00462 * W + #0.22 * H)
  | SAverage =>
      SReturn (#0.62544 + #0.13664 * H
               - W * (#0.00189 + #0.002425 / (H * H))
               + (#1 / W) * (#0.57986 + #2.545 * H - #0.02255 * g))
  end%E.

(** The statement [operator()] reaches for a given tag. *)
Definition body (s : strategy) (sex : Sex.t) : stmt :=
  if (sex =? Sex.F)%Z then body_F s
  else if (sex =? Sex.M)%Z then body_M s
  else SThrow (invalid_argument "Invalid sex").

(** Does an expression contain a division? *)
Fixpoint has_div (e : expr) : bool :=
  match e with
  | Lit _ | VarH | VarW | Varg => false
  | Add a b | Sub a b | Mul a b => has_div a || has_div b
  | Div _ _ => true
  end.

Definition divides (b : stmt) : bool :=
  match b with
  | SReturn e => has_div e
  | SThrow _ => false
  end.

(** Does an expression read the parameter [g]? *)
Fixpoint mentions_g (e : expr) : bool :=
  match e with
  | Varg => true
  | Lit _ | VarH | VarW => false
  | Add a b | Sub a b | Mul a b | Div a b => mentions_g a || mentions_g b
  end.

Definition reads_g (b : stmt) : bool :=
  match b with
  | SReturn e => mentions_g e
  | SThrow _ => false
  end.

(** Is every literal of an expression a finite double? *)
Fixpoint literals_finite (e : expr) : bool :=
  match e with
  | Lit c => is_finite c
  | VarH | VarW | Varg => true
  | Add a b | Sub a b | Mul a b | Div a b =>
      literals_finite a && literals_finite b
  end.

Definition finite_literals (b : stmt) : bool :=
  match b with
  | SReturn e => literals_finite e
  | SThrow _ => true
  end.

(** No divisor contains a division itself. *)
Fixpoint plain_divisors (e : expr) : bool :=
  match e with
  | Lit _ | VarH | VarW | Varg => true
  | Add a b | Sub a b | Mul a b => plain_divisors a && plain_divisors b
  | Div a b => plain_divisors a && negb (has_div b)
  end.

Definition plain (b : stmt) : bool :=
  match b with
  | SReturn e => plain_divisors e
  | SThrow _ => true
  end.

(** Some division of the expression has a divisor that evaluates to
    [+0] or [-0] at the given arguments. *)
Fixpoint divides_by_zero (e : expr) (H W g : float) : bool :=
  match e with
  | Lit _ | VarH | VarW | Varg => false
  | Add a b | Sub a b | Mul a b =>
      divides_by_zero a H W g || divides_by_zero b H W g
  | Div a b =>
      is_zero (eval b H W g)
      || divides_by_zero a H W g || divides_by_zero b H W g
  end.

Definition zero_divisor (b : stmt) (H W g : float) : bool :=
  match b with
  | SReturn e => divides_by_zero e H W g
  | SThrow _ => false
  end.

(** ** The formula table of the specification *)

(** The table of section 4.1, read in double precision: a product is
    [*], a quotient [/], and [H^2] is the rounded product of [H] with
    itself.  [None] is the entry "unavailable". *)
Module Table.
Definition sqr (x : float) : float := x * x.

Definition female (s : strategy)
  : option (float -> float -> float -> float) :=
  match s with
  | SWidmark => Some (fun H W g => 0.55)
  | SWatson => Some (fun H W g => 0.29218 + (12.666 * H - 2.4846) / W)
  | SForrest => Some (fun H W g => 0.8736 - 0.0124 * W / sqr H)
  | SSeidl => Some (fun H W g => 0.31223 - 0.006446 * W + 0.4466 * H)
  | SUlrich => None
  | SAverage =>
      Some (fun H W g =>
              0.50766 + 0.11165 * H
              - W * (0.001612 + 0.0031 / sqr H)
              - (1 / W) * (0.62115 - 3.1665 * H))
  end.

Definition male (s : strategy)
  : option (float -> float -> float -> float) :=
  match s with
  | SWidmark => Some (fun H W g => 0.68)
  | SWatson =>
      Some (fun H W g =>
              0.39834 + (12.725 * H - 0.11275 * g + 2.8993) / W)
  | SForrest => Some (fun H W g => 1.0178 - 0.012127 * W / sqr H)
  | SSeidl => Some (fun H W g => 0.31608 - 0.004821 * W + 0.4632 * H)
  | SUlrich => Some (fun H W g => 0.715 - 0.00462 * W + 0.22 * H)
  | SAverage =>
      Some (fun H W g =>
              0.62544 + 0.13664 * H
              - W * (0.00189 + 0.002425 / sqr H)
              + (1 / W) * (0.57986 + 2.545 * H - 0.02255 * g))
  end.

Definition entry (s : strategy) (sex : Sex.t)
  : option (float -> float -> float -> float) :=
  if (sex =? Sex.F)%Z then female s
  else if (sex =? Sex.M)%Z then male s
  else None.
End Table.

(** ** The demonstration driver [main] *)

(** What [operator<<] inserts into [std::cout]. *)
Inductive token : Set :=
| tok_string (s : string)
| tok_double (d : float)
| tok_endl.

(** The observable steps of a run: an insertion into [std::cout], and
    an entry into [operator()] with its receiver and arguments. *)
Inductive event : Set :=
| ev_cout (t : token)
| ev_call (s : strategy) (sex : Sex.t) (H W g : float).

(** A statement maps the trace so far to an outcome and the new trace. *)
Definition prog (A : Type) : Type := list event -> outcome A * list event.

Definition ret {A : Type} (a : A) : prog A := fun tr => (Return a, tr).

Definition bind {A B : Type} (c : prog A) (k : A -> prog B) : prog B :=
  fun tr =>
    match c tr with
    | (Return a, tr') => k a tr'
    | (Throw e, tr') => (Throw e, tr')
    end.

Notation "x <- c ;; k" := (bind c (fun x => k))
  (at level 61, c at next level, right associativity).
Notation "c ;; k" := (bind c (fun _ => k))
  (at level 61, right associativity).

(** [try { body } catch (const cls &e) { handler }] *)
Definition try_catch {A : Type} (body : prog A) (cls : exception_class)
  (handler : exception -> prog A) : prog A :=
  fun tr =>
    match body tr with
    | (Return a, tr') => (Return a, tr')
    | (Throw e, tr') =>
        if derives_from (exn_class e) cls then handler e tr'
        else (Throw e, tr')
    end.

(** [std::cout << t] *)
Definition cout (t : token) : prog unit :=
  fun tr => (Return tt, tr ++ [ev_cout t]).

(** [obj(sex, H, W, g)] for the object [obj] of class [s] *)
Definition invoke (s : strategy) (sex : Sex.t) (H W g : float)
  : prog float :=
  fun tr => (call (instance s) sex H W g, tr ++ [ev_call s sex H W g]).

(** [std::cout << label << value << std::endl;]  The operands of [<<]
    are evaluated left to right (C++17), so the label is inserted before
    the call is made. *)
Definition print_line (label : string) (value : prog float) : prog unit :=
  cout (tok_string label) ;;
  r <- value ;;
  cout (tok_double r) ;;
  cout tok_endl.

Definition main : prog Z :=
  let H := 170.0 in
  let W := 70.0 in
  let g := 18.0 in
  print_line "Widmark (F): " (invoke SWidmark Sex.F H W g) ;;
  print_line "Widmark (M): " (invoke SWidmark Sex.M H W g) ;;
  print_line "Watson (F): " (invoke SWatson Sex.F H W g) ;;
  print_line "Watson (M): " (invoke SWatson Sex.M H W g) ;;
  print_line "Forrest (F): " (invoke SForrest Sex.F H W g) ;;
  print_line "Forrest (M): " (invoke SForrest Sex.M H W g) ;;
  print_line "Seidl (F): " (invoke SSeidl Sex.F H W g) ;;
  print_line "Seidl (M): " (invoke SSeidl Sex.M H W g) ;;
  try_catch
    (print_line "Ulrich (F): " (invoke SUlrich Sex.F H W g))
    std_invalid_argument
    (fun e =>
       cout (tok_string "Ulrich (F): ") ;;
       cout (tok_string (what e)) ;;
       cout tok_endl) ;;
  print_line "Ulrich (M): " (invoke SUlrich Sex.M H W g) ;;
  print_line "Average (F): " (invoke SAverage Sex.F H W g) ;;
  print_line "Average (M): " (invoke SAverage Sex.M H W g) ;;
  ret 0%Z.

(** The arguments of the calls of a trace, and what it printed. *)
Record invocation : Set := mk_invocation
  { inv_strategy : strategy;
    inv_sex : Sex.t;
    inv_H : float;
    inv_W : float;
    inv_g : float }.

Fixpoint invocations (tr : list event) : list invocation :=
  match tr with
  | [] => []
  | ev_call s sex H W g :: tr' => mk_invocation s sex H W g :: invocations tr'
  | ev_cout _ :: tr' => invocations tr'
  end.

Fixpoint printed (tr : list event) : list token :=
  match tr with
  | [] => []
  | ev_cout t :: tr' => t :: printed tr'
  | ev_call _ _ _ _ _ :: tr' => printed tr'
  end.

(** Does an invocation pass exactly these three doubles? *)
Definition passes (H W g : float) (i : invocation) : bool :=
  Leibniz.eqb (inv_H i) H && Leibniz.eqb (inv_W i) W
  && Leibniz.eqb (inv_g i) g.

(** The doubles among the printed tokens, in order. *)
Fixpoint printed_doubles (ts : list token) : list float :=
  match ts with
  | [] => []
  | tok_double d :: ts' => d :: printed_doubles ts'
  | _ :: ts' => printed_doubles ts'
  end.

(** The values of the outcomes that are returns, in order. *)
Fixpoint returned (os : list (outcome float)) : list float :=
  match os with
  | [] => []
  | Return r :: os' => r :: returned os'
  | Throw _ :: os' => returned os'
  end.

(** The outcome of the call an invocation records. *)
Definition replay (i : invocation) : outcome float :=
  call (instance (inv_strategy i)) (inv_sex i) (inv_H i) (inv_W i) (inv_g i).

(** ** Classes of doubles *)

(** [std::isinf(x) || std::isnan(x)] *)
Definition inf_or_nan (x : float) : bool := is_infinity x || is_nan x.

(** The three doubles of the concrete scenarios. *)
Definition sample_H : float := 1.70.
Definition sample_W : float := 70.0.
Definition sample_g : float := 18.0.

(** A finite double is a multiple of [2^-1074]; [finite_le B x] says that
    [x] is finite with [|x| <= B * 2^-1074]. *)
Definition finite_le (B : Z) (x : float) : Prop :=
  match Prim2SF x with
  | S754_zero _ => (0 <= B)%Z
  | S754_finite _ m e => (Z.pos m * 2 ^ (e + 1074) <= B)%Z
  | S754_infinity _ | S754_nan => False
  end.

(** The same reading of a specification-level float. *)
Definition sf_le (off B : Z) (x : spec_float) : Prop :=
  match x with
  | S754_zero _ => (0 <= B)%Z
  | S754_finite _ m e => (Z.pos m * 2 ^ (e + off) <= B)%Z
  | S754_infinity _ | S754_nan => False
  end.

(** ** Parameters and argument triples *)

(** The three [double] parameters of a method. *)
Inductive param : Set := PH | PW | Pg.

(** Does an expression read the parameter [p]? *)
Fixpoint mentions (p : param) (e : expr) : bool :=
  match e with
  | Lit _ => false
  | VarH => match p with PH => true | _ => false end
  | VarW => match p with PW => true | _ => false end
  | Varg => match p with Pg => true | _ => false end
  | Add a b | Sub a b | Mul a b | Div a b => mentions p a || mentions p b
  end.

Definition reads (p : param) (b : stmt) : bool :=
  match b with
  | SReturn e => mentions p e
  | SThrow _ => false
  end.

(** The arguments [(H, W, g)] of a call, one of them, and the triple
    with one of them replaced. *)
Definition args : Set := (float * float * float)%type.

Definition arg (p : param) (a : args) : float :=
  let '(H, W, g) := a in
  match p with PH => H | PW => W | Pg => g end.

Definition set_arg (p : param) (v : float) (a : args) : args :=
  let '(H, W, g) := a in
  match p with
  | PH => (v, W, g)
  | PW => (H, v, g)
  | Pg => (H, W, v)
  end.

Definition call_args (self : abc_Widmark) (sex : Sex.t) (a : args)
  : outcome float :=
  let '(H, W, g) := a in call self sex H W g.

(** ** The methods in a fragment of C++ that has effects

    Whether a method is a function of its arguments, and whether it
    leaves the state of the program alone, cannot be asked of the Rocq
    functions above: every Rocq function is one.  The methods are
    therefore transcribed once more, as syntax of a fragment of C++ in
    which a body can read and write data members and variables of static
    storage, print, and call functions whose result is unknown.  Its
    semantics is a relation, so that a body may have several outcomes or
    none. *)

Inductive binop : Set := OAdd | OSub | OMul | ODiv.

Definition binop_eval (o : binop) (x y : float) : float :=
  match o with
  | OAdd => x + y
  | OSub => x - y
  | OMul => x * y
  | ODiv => x / y
  end.

Inductive cxx_expr : Set :=
| ELit (c : float)                    (* a literal *)
| EParam (p : param)                  (* a parameter of the method *)
| EBin (o : binop) (a b : cxx_expr)   (* a o b *)
| ELoad (x : string)                  (* a data member or static variable *)
| EStore (x : string) (a : cxx_expr)  (* x = a *)
| EExtern (f : string).               (* f(), defined outside the program *)

(** The two virtual methods. *)
Inductive method : Set := m_forward_F | m_forward_M.

Inductive cxx_stmt : Set :=
| TReturn (e : cxx_expr)                     (* return e; *)
| TThrow (x : exception)                     (* throw x; *)
| TDo (e : cxx_expr) (k : cxx_stmt)          (* e; k *)
| TCout (e : cxx_expr) (k : cxx_stmt)        (* std::cout << e; k *)
| TIfSex (v : Sex.t) (k1 k2 : cxx_stmt)      (* if (sex == v) k1 else k2 *)
| TReturnVirtual (m : method).               (* return m(H, W, g); *)

Declare Scope cxx_scope.
Delimit Scope cxx_scope with cxx.
Bind Scope cxx_scope with cxx_expr.
Notation "a + b" := (EBin OAdd a b) : cxx_scope.
Notation "a - b" := (EBin OSub a b) : cxx_scope.
Notation "a * b" := (EBin OMul a b) : cxx_scope.
Notation "a / b" := (EBin ODiv a b) : cxx_scope.
Notation "# c" := (ELit c%float) (at level 1, format "# c") : cxx_scope.

(** What a call could observe or change besides its arguments: the
    values of the data members and static variables, and what has been
    written to [std::cout]. *)
Record world : Type := mk_world
  { store : string -> float;
    cout_stream : list token }.

Definition set_store (x : string) (v : float) (w : world) : world :=
  {| store := fun y => if String.eqb y x then v else store w y;
     cout_stream := cout_stream w |}.

Definition write_cout (v : float) (w : world) : world :=
  {| store := store w;
     cout_stream := cout_stream w ++ [tok_double v] |}.

(** [eval_rel a w e v w']: from the world [w], with the arguments [a],
    the expression [e] can have the value [v] and leave the world [w'].
    The operands of an arithmetic operator are evaluated in either
    order; an external function returns any value. *)
Inductive eval_rel (a : args) : world -> cxx_expr -> float -> world -> Prop :=
| ev_lit w c : eval_rel a w (ELit c) c w
| ev_param w p : eval_rel a w (EParam p) (arg p a) w
| ev_bin_lr w w1 w2 o e1 e2 x y :
    eval_rel a w e1 x w1 -> eval_rel a w1 e2 y w2 ->
    eval_rel a w (EBin o e1 e2) (binop_eval o x y) w2
| ev_bin_rl w w1 w2 o e1 e2 x y :
    eval_rel a w e2 y w1 -> eval_rel a w1 e1 x w2 ->
    eval_rel a w (EBin o e1 e2) (binop_eval o x y) w2
| ev_load w x : eval_rel a w (ELoad x) (store w x) w
| ev_store w w1 x e v :
    eval_rel a w e v w1 ->
    eval_rel a w (EStore x e) v (set_store x v w1)
| ev_extern w f v : eval_rel a w (EExtern f) v w.

(** [exec_rel vt sex a w k o w']: on a receiver with the method table
    [vt], with the tag [sex] and the arguments [a], the statement [k] can
    end with the outcome [o] in the world [w']. *)
Inductive exec_rel (vt : method -> cxx_stmt) (sex : Sex.t) (a : args)
  : world -> cxx_stmt -> outcome float -> world -> Prop :=
| ex_return w w' e v :
    eval_rel a w e v w' -> exec_rel vt sex a w (TReturn e) (Return v) w'
| ex_throw w x : exec_rel vt sex a w (TThrow x) (Throw x) w
| ex_do w w1 w2 e v k o :
    eval_rel a w e v w1 -> exec_rel vt sex a w1 k o w2 ->
    exec_rel vt sex a w (TDo e k) o w2
| ex_cout w w1 w2 e v k o :
    eval_rel a w e v w1 -> exec_rel vt sex a (write_cout v w1) k o w2 ->
    exec_rel vt sex a w (TCout e k) o w2
| ex_if_eq w w' v k1 k2 o :
    sex = v -> exec_rel vt sex a w k1 o w' ->
    exec_rel vt sex a w (TIfSex v k1 k2) o w'
| ex_if_neq w w' v k1 k2 o :
    sex <> v -> exec_rel vt sex a w k2 o w' ->
    exec_rel vt sex a w (TIfSex v k1 k2) o w'
| ex_virtual w w' m o :
    exec_rel vt sex a w (vt m) o w' ->
    exec_rel vt sex a w (TReturnVirtual m) o w'.

(** The bodies of [forward_F] and [forward_M], class by class. *)
Definition cxx_forward_F (s : strategy) : cxx_stmt :=
  let H := EParam PH in let W := EParam PW in let g := EParam Pg in
  match s with
  | SWidmark => TReturn (#0.55)
  | SWatson => TReturn (#0.29218 + (#12.666 * H - #2.4846) / W)
  | SForrest => TReturn (#0.8736 - #0.0124 * W / (H * H))
  | SSeidl => TReturn (#0.31223 - #0.006446 * W + #0.4466 * H)
  | SUlrich => TThrow (invalid_argument "No estimator available")
  | SAverage =>
      TReturn (#0.50766 + #0.11165 * H
               - W * (#0.001612 + #0.0031 / (H * H))
               - (#1 / W) * (#0.62115 - #3.1665 * H))
  end%cxx.

Definition cxx_forward_M (s : strategy) : cxx_stmt :=
  let H := EParam PH in let W := EParam PW in let g := EParam Pg in
  match s with
  | SWidmark => TReturn (#0.68)
  | SWatson =>
      TReturn (#0.39834 + (#12.725 * H - #0.11275 * g + #2.8993) / W)
  | SForrest => TReturn (#1.0178 - #0.012127 * W / (H * H))
  | SSeidl => TReturn (#0.31608 - #0.004821 * W + #0.4632 * H)
  | SUlrich => TReturn (#0.715 - #0.00462 * W + #0.22 * H)
  | SAverage =>
      TReturn (#0.62544 + #0.13664 * H
               - W * (#0.00189 + #0.002425 / (H * H))
               + (#1 / W) * (#0.57986 + #2.545 * H - #0.02255 * g))
  end%cxx.

(** The method table of an object of class [s]. *)
Definition vtable (s : strategy) (m : method) : cxx_stmt :=
  match m with
  | m_forward_F => cxx_forward_F s
  | m_forward_M => cxx_forward_M s
  end.

(** The body of [operator()]. *)
Definition cxx_operator_call : cxx_stmt :=
  TIfSex Sex.F (TReturnVirtual m_forward_F)
    (TIfSex Sex.M (TReturnVirtual m_forward_M)
       (TThrow (invalid_argument "Invalid sex"))).

(** The method of the Rocq model that a table entry stands for. *)
Definition method_of (m : method) (self : abc_Widmark)
  : float -> float -> float -> outcome float :=
  match m with
  | m_forward_F => forward_F self
  | m_forward_M => forward_M self
  end.

(** The value of an expression built from literals, parameters and
    arithmetic only; [None] for any other expression. *)
Fixpoint value (e : cxx_expr) (a : args) : option float :=
  match e with
  | ELit c => Some c
  | EParam p => Some (arg p a)
  | EBin o e1 e2 =>
      match value e1 a, value e2 a with
      | Some x, Some y => Some (binop_eval o x y)
      | _, _ => None
      end
  | ELoad _ | EStore _ _ | EExtern _ => None
  end.

(** The outcome of a statement that returns such an expression or
    throws; [None] for any other statement. *)
Definition plain_outcome (k : cxx_stmt) (a : args) : option (outcome float) :=
  match k with
  | TReturn e =>
      match value e a with
      | Some v => Some (Return v)
      | None => None
      end
  | TThrow x => Some (Throw x)
  | TDo _ _ | TCout _ _ | TIfSex _ _ _ | TReturnVirtual _ => None
  end.

(** ** Tactics for closed numeric side conditions *)

(** An inequality between closed integers, decided by evaluation. *)
Ltac big_arith :=
  first [ apply Z.ltb_lt | apply Z.leb_le ]; vm_compute; reflexivity.

(** Case analysis on the classes and signs of two operands. *)
Ltac sf_cases x y :=
  destruct (Prim2SF x) as [[]|[]| |[] ? ?],
           (Prim2SF y) as [[]|[]| |[] ? ?];
  cbn; intuition discriminate.

(** A bound on a literal, decided by evaluation. *)
Ltac literal_le :=
  unfold finite_le; vm_compute; discriminate.

(** * Facts about binary64 arithmetic *)

(** ** Classes of a double, read on its specification-level image *)

Lemma SFeqb_refl_finite s m e :
  SFeqb (S754_finite s m e) (S754_finite s m e) = true.
Proof.
  unfold SFeqb, SFcompare. rewrite Z.compare_refl, Pos.compare_cont_refl.
  destruct s; reflexivity.
Qed.

Lemma Prim2SF_infinity : Prim2SF infinity = S754_infinity false.
Proof. vm_compute. reflexivity. Qed.

Lemma Prim2SF_zero : Prim2SF zero = S754_zero false.
Proof. vm_compute. reflexivity. Qed.

Lemma is_nan_SF x :
  is_nan x = match Prim2SF x with S754_nan => true | _ => false end.
Proof.
  unfold is_nan. rewrite eqb_spec.
  destruct (Prim2SF x) as [[]|[]| |s m e]; try reflexivity.
  now rewrite SFeqb_refl_finite.
Qed.

Lemma is_infinity_SF x :
  is_infinity x
  = match Prim2SF x with S754_infinity _ => true | _ => false end.
Proof.
  unfold is_infinity. rewrite eqb_spec, abs_spec, Prim2SF_infinity.
  destruct (Prim2SF x) as [s|s| |s m e]; reflexivity.
Qed.

Lemma is_zero_SF x :
  is_zero x = match Prim2SF x with S754_zero _ => true | _ => false end.
Proof.
  unfold is_zero. rewrite eqb_spec, Prim2SF_zero.
  destruct (Prim2SF x) as [[]|[]| |[] m e]; reflexivity.
Qed.

Lemma is_finite_SF x :
  is_finite x
  = match Prim2SF x with
    | S754_zero _ | S754_finite _ _ _ => true
    | S754_infinity _ | S754_nan => false
    end.
Proof.
  unfold is_finite. rewrite is_nan_SF, is_infinity_SF.
  destruct (Prim2SF x); reflexivity.
Qed.

Lemma inf_or_nan_SF x :
  inf_or_nan x
  = match Prim2SF x with
    | S754_infinity _ | S754_nan => true
    | S754_zero _ | S754_finite _ _ _ => false
    end.
Proof.
  unfold inf_or_nan. rewrite is_nan_SF, is_infinity_SF.
  destruct (Prim2SF x); reflexivity.
Qed.

(** Any dividend over a zero is an infinity or NaN. *)
Lemma div_zero_inf_or_nan x y :
  is_zero y = true -> inf_or_nan (x / y) = true.
Proof.
  rewrite is_zero_SF, inf_or_nan_SF, div_spec.
  destruct (Prim2SF y); try discriminate.
  destruct (Prim2SF x); reflexivity.
Qed.

(** An infinite or NaN operand makes a sum, a difference and a product
    infinite or NaN, and so does an infinite or NaN dividend. *)
Lemma add_inf_or_nan x y :
  inf_or_nan x = true \/ inf_or_nan y = true -> inf_or_nan (x + y) = true.
Proof. rewrite !inf_or_nan_SF, add_spec. sf_cases x y. Qed.

Lemma sub_inf_or_nan x y :
  inf_or_nan x = true \/ inf_or_nan y = true -> inf_or_nan (x - y) = true.
Proof. rewrite !inf_or_nan_SF, sub_spec. sf_cases x y. Qed.

Lemma mul_inf_or_nan x y :
  inf_or_nan x = true \/ inf_or_nan y = true -> inf_or_nan (x * y) = true.
Proof. rewrite !inf_or_nan_SF, mul_spec. sf_cases x y. Qed.

Lemma div_inf_or_nan_l x y :
  inf_or_nan x = true -> inf_or_nan (x / y) = true.
Proof. rewrite !inf_or_nan_SF, div_spec. sf_cases x y. Qed.

Lemma mul_zero_zero x y :
  is_zero x = true -> is_zero y = true -> is_zero (x * y) = true.
Proof. rewrite !is_zero_SF, mul_spec. sf_cases x y. Qed.

(** ** Rounding never exceeds the exact value by more than one unit

    The lemmas of this section follow [binary_round_aux], the rounding
    every arithmetic operation ends with: a right shift to the target
    exponent, the round-to-nearest-even choice, and a second shift for
    the carry.  For an exact value below [2^1023] the result is zero or
    finite, and is at most the exact value plus [2^970]. *)
Section Rounding.
Local Open Scope Z_scope.

Lemma digits2_pos_bounds m :
  2 ^ (Z.pos (digits2_pos m) - 1) <= Z.pos m < 2 ^ Z.pos (digits2_pos m).
Proof.
  induction m as [p IH|p IH|]; cbn [digits2_pos]; [| |cbn; lia];
    rewrite Pos2Z.inj_succ, Z.pow_succ_r by lia;
    replace (Z.succ (Z.pos (digits2_pos p)) - 1)
      with (Z.succ (Z.pos (digits2_pos p) - 1)) by lia;
    rewrite Z.pow_succ_r by lia; lia.
Qed.

Lemma shr_1_div2 r : shr_m (shr_1 r) = Z.div2 (shr_m r) \/ shr_m r < 0.
Proof.
  destruct r as [m rb sb]. destruct m as [|[p|p|]|p]; cbn; auto; right; lia.
Qed.

Lemma shr_1_m r : 0 <= shr_m r -> shr_m (shr_1 r) = shr_m r / 2.
Proof.
  intros Hr. destruct (shr_1_div2 r) as [E|E]; [|lia].
  now rewrite E, Z.div2_div.
Qed.

Lemma iter_pos_shr_m p : forall r,
  0 <= shr_m r -> shr_m (iter_pos shr_1 p r) = shr_m r / 2 ^ Z.pos p.
Proof.
  induction p as [p IH|p IH|]; intros r Hr; cbn [iter_pos].
  - assert (H1 : 0 <= shr_m (shr_1 r))
      by (rewrite shr_1_m by lia; apply Z.div_pos; lia).
    assert (H2 : 0 <= shr_m (iter_pos shr_1 p (shr_1 r)))
      by (rewrite IH by lia; apply Z.div_pos; lia).
    rewrite IH, IH, shr_1_m by lia.
    rewrite !Z.div_div by lia.
    replace (Z.pos p~1) with (1 + Z.pos p + Z.pos p) by lia.
    rewrite !Z.pow_add_r by lia. rewrite <- Z.mul_assoc. reflexivity.
  - assert (H2 : 0 <= shr_m (iter_pos shr_1 p r))
      by (rewrite IH by lia; apply Z.div_pos; lia).
    rewrite IH, IH by lia.
    rewrite !Z.div_div by lia.
    replace (Z.pos p~0) with (Z.pos p + Z.pos p) by lia.
    rewrite Z.pow_add_r by lia. reflexivity.
  - rewrite shr_1_m by lia. reflexivity.
Qed.

Lemma round_nearest_even_range m l :
  m <= round_nearest_even m l <= m + 1.
Proof.
  destruct l as [|[]]; cbn; try lia. destruct (Z.even m); lia.
Qed.

Lemma shr_fexp_exact m e :
  0 <= m ->
  exists mrs,
    shr_fexp prec emax m e loc_Exact
    = (mrs, e + Z.max 0 (fexp prec emax (Zdigits2 m + e) - e))
    /\ shr_m mrs = m / 2 ^ Z.max 0 (fexp prec emax (Zdigits2 m + e) - e)
    /\ (fexp prec emax (Zdigits2 m + e) <= e ->
        loc_of_shr_record mrs = loc_Exact).
Proof.
  intros Hm. unfold shr_fexp, shr.
  destruct (fexp prec emax (Zdigits2 m + e) - e) as [|p|p] eqn:En.
  - eexists; split; [|split].
    + now rewrite Z.add_0_r.
    + cbn. now rewrite Z.div_1_r.
    + reflexivity.
  - eexists; split; [|split].
    + reflexivity.
    + rewrite iter_pos_shr_m by (cbn; lia). reflexivity.
    + intros. lia.
  - eexists; split; [|split].
    + now rewrite Z.add_0_r.
    + cbn. now rewrite Z.div_1_r.
    + reflexivity.
Qed.

Lemma Zdigits2_le_pow m k :
  0 <= k -> 0 <= m <= 2 ^ k -> Zdigits2 m <= k + 1.
Proof.
  intros Hk [H0 H1]. destruct m as [|q|q]; cbn; try lia.
  pose proof (digits2_pos_bounds q) as [Hd _].
  assert (Z.pos (digits2_pos q) - 1 <= k); [|lia].
  apply (Z.pow_le_mono_r_iff 2); lia.
Qed.

Lemma div_pow2_lt m d n :
  0 <= n -> 0 <= d - n -> 0 <= m < 2 ^ d -> m / 2 ^ n < 2 ^ (d - n).
Proof.
  intros Hn Hd [H0 H1].
  apply Z.div_lt_upper_bound; [lia|].
  rewrite <- Z.pow_add_r by lia. replace (n + (d - n)) with d by lia. lia.
Qed.

(** Dropping [n] low bits and raising the exponent by [n] does not
    increase the value. *)
Lemma shift_right_le m n e :
  0 <= m -> 0 <= n -> 0 <= e ->
  (m / 2 ^ n) * 2 ^ (n + e) <= m * 2 ^ e.
Proof.
  intros Hm Hn He. rewrite Z.pow_add_r, Z.mul_assoc by lia.
  apply Z.mul_le_mono_nonneg_r; [apply Z.pow_nonneg; lia|].
  rewrite Z.mul_comm. apply Z.mul_div_le. apply Z.pow_pos_nonneg; lia.
Qed.

(** An exact value [m * 2^e] below [2^1023], with [e <= 971], rounds to
    zero or to a finite float that exceeds it by at most [2^970].  Values
    are compared after scaling by [2^off], which makes them integers. *)
Lemma binary_round_aux_bound s m e off :
  0 <= off -> - off <= e -> e <= 971 ->
  Z.pos m * 2 ^ (e + off) < 2 ^ (1023 + off) ->
  sf_le off (Z.pos m * 2 ^ (e + off) + 2 ^ (970 + off))
    (binary_round_aux prec emax s (Z.pos m) e loc_Exact).
Proof.
  intros Hoff0 Hoff He Hv.
  pose proof (digits2_pos_bounds m) as [Hd1 Hd2].
  set (d := Z.pos (digits2_pos m)) in *.
  assert (Hde : d + e <= 1023).
  { assert (d - 1 + (e + off) < 1023 + off); [|lia].
    apply (Z.pow_lt_mono_r_iff 2); [lia|lia|].
    rewrite Z.pow_add_r by lia.
    eapply Z.le_lt_trans; [|exact Hv].
    apply Z.mul_le_mono_nonneg_r; [lia|exact Hd1]. }
  unfold binary_round_aux.
  destruct (shr_fexp_exact (Z.pos m) e) as (r1 & E1 & M1 & L1); [lia|].
  rewrite E1. change (Zdigits2 (Z.pos m)) with d in *.
  set (n := Z.max 0 (fexp prec emax (d + e) - e)) in *.
  assert (Hfe : fexp prec emax (d + e) = Z.max (d + e - 53) (-1074))
    by reflexivity.
  set (m2 := round_nearest_even (shr_m r1) (loc_of_shr_record r1)).
  pose proof (round_nearest_even_range (shr_m r1) (loc_of_shr_record r1))
    as Hm2.
  fold m2 in Hm2. rewrite M1 in Hm2.
  assert (Hp : 0 < 2 ^ (e + off)) by (apply Z.pow_pos_nonneg; lia).
  assert (Hp970 : 0 < 2 ^ (970 + off)) by (apply Z.pow_pos_nonneg; lia).
  assert (Hmp : 0 < Z.pos m * 2 ^ (e + off)) by (apply Z.mul_pos_pos; lia).
  assert (Hle : forall z, (z <=? emax - prec) = true <-> z <= 971)
    by (intros z; apply Z.leb_le).
  destruct (Z.le_gt_cases (fexp prec emax (d + e)) e) as [Hn|Hn].
  - (* No shift: the value is representable at the exponent [e]. *)
    assert (En : n = 0) by (unfold n; lia).
    assert (Em2 : m2 = Z.pos m).
    { unfold m2. rewrite (L1 Hn), M1, En. cbn. now rewrite Z.div_1_r. }
    rewrite Em2, En, Z.add_0_r.
    destruct (shr_fexp_exact (Z.pos m) e) as (r2 & E2 & M2 & L2); [lia|].
    rewrite E2. change (Zdigits2 (Z.pos m)) with d in *.
    fold n in E2, M2 |- *.
    rewrite M2, En, Z.add_0_r. cbn [Z.pow]. rewrite Z.div_1_r.
    rewrite (proj2 (Hle e) He). unfold sf_le. lia.
  - (* A shift by [n > 0] to the exponent [e1 <= 970]. *)
    assert (En : n = fexp prec emax (d + e) - e) by (unfold n; lia).
    set (e1 := e + n) in *.
    assert (He1 : e1 = Z.max (d + e - 53) (-1074)) by (unfold e1; lia).
    assert (Hm1 : 0 <= Z.pos m / 2 ^ n < 2 ^ 53).
    { split; [apply Z.div_pos; lia|].
      destruct (Z.le_gt_cases n d) as [Hnd|Hnd].
      - eapply Z.lt_le_trans; [apply (div_pow2_lt _ d n); lia|].
        apply Z.pow_le_mono_r; lia.
      - rewrite Z.div_small; [lia|]. split; [lia|].
        eapply Z.lt_le_trans; [exact Hd2|]. apply Z.pow_le_mono_r; lia. }
    assert (Hval1 : (Z.pos m / 2 ^ n) * 2 ^ (e1 + off)
                    <= Z.pos m * 2 ^ (e + off)).
    { unfold e1. replace (e + n + off) with (n + (e + off)) by lia.
      apply shift_right_le; lia. }
    assert (Hpe1 : 0 < 2 ^ (e1 + off) <= 2 ^ (970 + off)).
    { split; [apply Z.pow_pos_nonneg; lia|apply Z.pow_le_mono_r; lia]. }
    assert (Hval2 : m2 * 2 ^ (e1 + off)
                    <= Z.pos m * 2 ^ (e + off) + 2 ^ (970 + off)) by nia.
    (* The second shift is by one bit at most, after a carry. *)
    destruct (shr_fexp_exact m2 e1) as (r2 & E2 & M2 & L2); [lia|].
    rewrite E2.
    assert (Hd2' : Zdigits2 m2 <= 54) by (apply (Zdigits2_le_pow m2 53); lia).
    assert (Hfe2 : fexp prec emax (Zdigits2 m2 + e1)
                   = Z.max (Zdigits2 m2 + e1 - 53) (-1074)) by reflexivity.
    set (n2 := Z.max 0 (fexp prec emax (Zdigits2 m2 + e1) - e1)) in *.
    assert (Hn2 : n2 = 0 \/ n2 = 1) by (unfold n2; lia).
    assert (Hm3 : 0 <= m2 / 2 ^ n2)
      by (apply Z.div_pos; [lia|apply Z.pow_pos_nonneg; lia]).
    assert (Hval3 : (m2 / 2 ^ n2) * 2 ^ (e1 + n2 + off)
                    <= m2 * 2 ^ (e1 + off)).
    { replace (e1 + n2 + off) with (n2 + (e1 + off)) by lia.
      apply shift_right_le; lia. }
    rewrite M2.
    destruct (m2 / 2 ^ n2) as [|q|q] eqn:Eq3; [unfold sf_le; lia| |lia].
    rewrite (proj2 (Hle (e1 + n2))) by lia. unfold sf_le. lia.
Qed.

Lemma sf_le_mono off A B x : A <= B -> sf_le off A x -> sf_le off B x.
Proof. destruct x; cbn; lia. Qed.

Lemma valid_finite s m e :
  valid_binary (S754_finite s m e) = true ->
  -1074 <= e <= 971 /\ Z.pos m < 2 ^ 53
  /\ (e = -1074 \/ 2 ^ 52 <= Z.pos m).
Proof.
  cbn [SpecFloat.valid_binary]. unfold bounded, canonical_mantissa.
  rewrite andb_true_iff, Z.eqb_eq, Z.leb_le.
  assert (Hfe : fexp prec emax (Z.pos (digits2_pos m) + e)
                = Z.max (Z.pos (digits2_pos m) + e - 53) (-1074))
    by reflexivity.
  rewrite Hfe. change (emax - prec) with 971.
  intros [Hc He]. split; [lia|].
  pose proof (digits2_pos_bounds m) as [Hd' Hd]. split.
  - eapply Z.lt_le_trans; [exact Hd|]. apply Z.pow_le_mono_r; lia.
  - destruct (Z.eq_dec e (-1074)) as [E|E]; [now left|right].
    replace (Z.pos (digits2_pos m)) with 53 in Hd' by lia. exact Hd'.
Qed.

Lemma pos_iter_xO m d : Z.pos (Pos.iter xO m d) = Z.pos m * 2 ^ Z.pos d.
Proof.
  induction d as [|d IH] using Pos.peano_ind.
  - cbn. lia.
  - rewrite Pos.iter_succ, Pos2Z.inj_xO, IH, Pos2Z.inj_succ by lia.
    rewrite Z.pow_succ_r by lia. lia.
Qed.

Lemma shl_align_spec m e e' :
  snd (shl_align m e e') = Z.min e e'
  /\ Z.pos (fst (shl_align m e e')) = Z.pos m * 2 ^ (e - Z.min e e').
Proof.
  unfold shl_align. destruct (e' - e) as [|p|p] eqn:E; cbn [fst snd].
  - replace (Z.min e e') with e by lia. rewrite Z.sub_diag. cbn. lia.
  - replace (Z.min e e') with e by lia. rewrite Z.sub_diag. cbn. lia.
  - replace (Z.min e e') with e' by lia. split; [reflexivity|].
    rewrite pos_iter_xO. f_equal. f_equal. lia.
Qed.

Lemma cond_Zopp_abs b m : Z.abs (cond_Zopp b m) = Z.abs m.
Proof. destruct b; cbn; lia. Qed.

Lemma scaled_pos m e off : 0 <= e + off -> 0 < Z.pos m * 2 ^ (e + off).
Proof.
  intros He. apply Z.mul_pos_pos; [lia|]. now apply Z.pow_pos_nonneg.
Qed.

(** The exponent offset is kept a variable, [o = 1074], so that the
    powers of two below stay symbolic. *)
Variable o : Z.
Hypothesis Ho : o = 1074.

Lemma binary_round_bound s k e :
  -1074 <= e <= 971 ->
  Z.pos k * 2 ^ (e + o) < 2 ^ (1023 + o) ->
  sf_le o (Z.pos k * 2 ^ (e + o) + 2 ^ (970 + o))
    (binary_round prec emax s k e).
Proof.
  intros He Hv. unfold binary_round.
  set (e' := fexp prec emax (Z.pos (digits2_pos k) + e)).
  assert (He' : -1074 <= e') by (unfold e', fexp; cbn; lia).
  destruct (shl_align_spec k e e') as [Hs Hf].
  destruct (shl_align k e e') as [mz ez]. cbn [fst snd] in Hs, Hf.
  assert (Hval : Z.pos mz * 2 ^ (ez + o) = Z.pos k * 2 ^ (e + o)).
  { rewrite Hf, Hs, <- Z.mul_assoc, <- Z.pow_add_r by lia.
    f_equal. f_equal. lia. }
  rewrite <- Hval in *.
  apply binary_round_aux_bound; lia.
Qed.

Lemma binary_normalize_bound S e A :
  -1074 <= e <= 971 ->
  Z.abs S * 2 ^ (e + o) <= A ->
  A < 2 ^ (1023 + o) ->
  sf_le o (A + 2 ^ (970 + o)) (binary_normalize prec emax S e false).
Proof.
  intros He HA Hlt.
  assert (0 < 2 ^ (970 + o)) by (apply Z.pow_pos_nonneg; lia).
  destruct S as [|k|k]; cbn [binary_normalize Z.abs] in *.
  - unfold sf_le. lia.
  - eapply sf_le_mono; [|apply binary_round_bound; lia]. lia.
  - eapply sf_le_mono; [|apply binary_round_bound; lia]. lia.
Qed.

Lemma aligned_sum_bound (op : Z -> Z -> Z) sx mx ex sy my ey A B :
  (forall a b, Z.abs (op a b) <= Z.abs a + Z.abs b) ->
  -1074 <= ex -> -1074 <= ey ->
  Z.pos mx * 2 ^ (ex + o) <= A ->
  Z.pos my * 2 ^ (ey + o) <= B ->
  Z.abs (op (cond_Zopp sx (Z.pos (fst (shl_align mx ex (Z.min ex ey)))))
            (cond_Zopp sy (Z.pos (fst (shl_align my ey (Z.min ex ey))))))
  * 2 ^ (Z.min ex ey + o) <= A + B.
Proof.
  intros Hop Hex Hey HA HB.
  set (ez := Z.min ex ey).
  destruct (shl_align_spec mx ex ez) as [_ Hx].
  destruct (shl_align_spec my ey ez) as [_ Hy].
  replace (Z.min ex ez) with ez in Hx by lia.
  replace (Z.min ey ez) with ez in Hy by lia.
  set (a := cond_Zopp sx _). set (b := cond_Zopp sy _).
  assert (Ha : Z.abs a * 2 ^ (ez + o) <= A).
  { unfold a. rewrite cond_Zopp_abs. cbn [Z.abs]. rewrite Hx.
    rewrite <- Z.mul_assoc, <- Z.pow_add_r by lia.
    replace (ex - ez + (ez + o)) with (ex + o) by lia. exact HA. }
  assert (Hb : Z.abs b * 2 ^ (ez + o) <= B).
  { unfold b. rewrite cond_Zopp_abs. cbn [Z.abs]. rewrite Hy.
    rewrite <- Z.mul_assoc, <- Z.pow_add_r by lia.
    replace (ey - ez + (ez + o)) with (ey + o) by lia. exact HB. }
  assert (Hp : 0 < 2 ^ (ez + o)) by (apply Z.pow_pos_nonneg; lia).
  specialize (Hop a b). nia.
Qed.

Lemma SFadd_bound x y A B :
  valid_binary x = true -> valid_binary y = true ->
  sf_le o A x -> sf_le o B y ->
  A + B < 2 ^ (1023 + o) ->
  sf_le o (A + B + 2 ^ (970 + o)) (SFadd prec emax x y).
Proof.
  intros Vx Vy HA HB Hlt.
  assert (0 < 2 ^ (970 + o)) by (apply Z.pow_pos_nonneg; lia).
  destruct x as [sx|sx| |sx mx ex], y as [sy|sy| |sy my ey];
    cbn [sf_le] in HA, HB; try contradiction.
  - destruct sx, sy; cbn [SFadd sf_le]; lia.
  - cbn [SFadd sf_le]. apply valid_finite in Vy.
    pose proof (scaled_pos my ey o). lia.
  - cbn [SFadd sf_le]. apply valid_finite in Vx.
    pose proof (scaled_pos mx ex o). lia.
  - apply valid_finite in Vx, Vy. cbn [SFadd].
    apply binary_normalize_bound; [lia| |lia].
    apply (aligned_sum_bound Z.add); try lia.
Qed.

Lemma SFsub_bound x y A B :
  valid_binary x = true -> valid_binary y = true ->
  sf_le o A x -> sf_le o B y ->
  A + B < 2 ^ (1023 + o) ->
  sf_le o (A + B + 2 ^ (970 + o)) (SFsub prec emax x y).
Proof.
  intros Vx Vy HA HB Hlt.
  assert (0 < 2 ^ (970 + o)) by (apply Z.pow_pos_nonneg; lia).
  destruct x as [sx|sx| |sx mx ex], y as [sy|sy| |sy my ey];
    cbn [sf_le] in HA, HB; try contradiction.
  - destruct sx, sy; cbn [SFsub sf_le]; lia.
  - cbn [SFsub sf_le]. apply valid_finite in Vy.
    pose proof (scaled_pos my ey o). lia.
  - cbn [SFsub sf_le]. apply valid_finite in Vx.
    pose proof (scaled_pos mx ex o). lia.
  - apply valid_finite in Vx, Vy. cbn [SFsub].
    apply binary_normalize_bound; [lia| |lia].
    apply (aligned_sum_bound Z.sub); try lia.
Qed.

(** A product of two valid doubles below [2^1023] has an exponent sum of
    at most 971: above it both factors are normal, hence large. *)
Lemma product_exponent_le sx mx ex sy my ey :
  valid_binary (S754_finite sx mx ex) = true ->
  valid_binary (S754_finite sy my ey) = true ->
  (Z.pos mx * 2 ^ (ex + o)) * (Z.pos my * 2 ^ (ey + o))
  < 2 ^ (1023 + (o + o)) ->
  ex + ey <= 971.
Proof.
  intros Vx Vy Hlt. apply valid_finite in Vx, Vy.
  destruct (Z.le_gt_cases (ex + ey) 971) as [He|He]; [exact He|exfalso].
  destruct Vx as (Hex & _ & [Ex|Ex]); [lia|].
  destruct Vy as (Hey & _ & [Ey|Ey]); [lia|].
  assert (H1 : 2 ^ (52 + (ex + o)) <= Z.pos mx * 2 ^ (ex + o)).
  { rewrite Z.pow_add_r by lia. apply Z.mul_le_mono_nonneg_r; [|exact Ex].
    apply Z.pow_nonneg. lia. }
  assert (H2 : 2 ^ (52 + (ey + o)) <= Z.pos my * 2 ^ (ey + o)).
  { rewrite Z.pow_add_r by lia. apply Z.mul_le_mono_nonneg_r; [|exact Ey].
    apply Z.pow_nonneg. lia. }
  assert (H3 : 2 ^ (1023 + (o + o))
               <= 2 ^ (52 + (ex + o)) * 2 ^ (52 + (ey + o))).
  { rewrite <- Z.pow_add_r by lia. apply Z.pow_le_mono_r; lia. }
  assert (H4 : 2 ^ (52 + (ex + o)) * 2 ^ (52 + (ey + o))
               <= Z.pos mx * 2 ^ (ex + o) * (Z.pos my * 2 ^ (ey + o))).
  { apply Z.mul_le_mono_nonneg; try assumption; apply Z.pow_nonneg; lia. }
  lia.
Qed.

Lemma SFmul_bound x y A B :
  valid_binary x = true -> valid_binary y = true ->
  sf_le o A x -> sf_le o B y ->
  A * B < 2 ^ (1023 + (o + o)) ->
  sf_le (o + o) (A * B + 2 ^ (970 + (o + o))) (SFmul prec emax x y).
Proof.
  intros Vx Vy HA HB Hlt.
  assert (0 < 2 ^ (970 + (o + o))) by (apply Z.pow_pos_nonneg; lia).
  destruct x as [sx|sx| |sx mx ex], y as [sy|sy| |sy my ey];
    cbn [sf_le] in HA, HB; try contradiction.
  - cbn [SFmul sf_le]. nia.
  - cbn [SFmul sf_le]. apply valid_finite in Vy.
    pose proof (scaled_pos my ey o). nia.
  - cbn [SFmul sf_le]. apply valid_finite in Vx.
    pose proof (scaled_pos mx ex o). nia.
  - pose proof (valid_finite _ _ _ Vx) as Vx'.
    pose proof (valid_finite _ _ _ Vy) as Vy'.
    cbn [SFmul].
    assert (Hx : 0 < Z.pos mx * 2 ^ (ex + o)) by (apply scaled_pos; lia).
    assert (Hy : 0 < Z.pos my * 2 ^ (ey + o)) by (apply scaled_pos; lia).
    assert (Hval : Z.pos (mx * my) * 2 ^ (ex + ey + (o + o))
                   = (Z.pos mx * 2 ^ (ex + o)) * (Z.pos my * 2 ^ (ey + o))).
    { replace (ex + ey + (o + o)) with ((ex + o) + (ey + o)) by lia.
      rewrite Z.pow_add_r, Pos2Z.inj_mul by lia. ring. }
    assert (Hle : Z.pos (mx * my) * 2 ^ (ex + ey + (o + o)) <= A * B).
    { rewrite Hval. apply Z.mul_le_mono_nonneg; lia. }
    assert (He : ex + ey <= 971).
    { apply (product_exponent_le sx mx ex sy my ey Vx Vy). lia. }
    eapply sf_le_mono; [|apply binary_round_aux_bound; lia]. lia.
Qed.

(** A bound at the offset [o + o] read at the offset [o]. *)
Lemma sf_le_rescale x C D :
  valid_binary x = true ->
  sf_le (o + o) D x -> D <= C * 2 ^ o -> sf_le o C x.
Proof.
  intros V HD HC.
  assert (Hp : 0 < 2 ^ o) by (apply Z.pow_pos_nonneg; lia).
  destruct x as [s|s| |s m e]; cbn [sf_le] in *; try contradiction.
  - nia.
  - apply valid_finite in V. destruct V as (He & _).
    replace (e + (o + o)) with ((e + o) + o) in HD by lia.
    rewrite Z.pow_add_r, Z.mul_assoc in HD by lia.
    apply (Z.mul_le_mono_pos_r _ _ (2 ^ o)); lia.
Qed.

(** Every finite valid double is below [2^1024]. *)
Lemma valid_sf_le x :
  valid_binary x = true ->
  match x with S754_zero _ | S754_finite _ _ _ => True | _ => False end ->
  sf_le o (2 ^ (1024 + o)) x.
Proof.
  intros V F. destruct x as [s|s| |s m e]; try contradiction; cbn [sf_le].
  - apply Z.pow_nonneg. lia.
  - apply valid_finite in V. destruct V as (He & Hm & _).
    replace (1024 + o) with (53 + (971 + o)) by lia.
    rewrite (Z.pow_add_r 2 53) by lia.
    apply Z.mul_le_mono_nonneg; try lia.
    apply Z.pow_le_mono_r; lia.
Qed.

End Rounding.

(** ** Bounds on the primitive operations *)
Section PrimitiveBounds.
Local Open Scope Z_scope.

Lemma finite_le_sf B x : finite_le B x <-> sf_le 1074 B (Prim2SF x).
Proof. reflexivity. Qed.

Lemma finite_le_is_finite B x : finite_le B x -> is_finite x = true.
Proof.
  unfold finite_le. rewrite is_finite_SF.
  destruct (Prim2SF x); intros; (reflexivity || contradiction).
Qed.

Lemma is_finite_finite_le x : is_finite x = true -> finite_le (2 ^ 2098) x.
Proof.
  rewrite is_finite_SF. intros F. apply finite_le_sf.
  apply (valid_sf_le 1074 eq_refl); [apply Prim2SF_valid|].
  destruct (Prim2SF x); (exact I || discriminate F).
Qed.

Lemma add_finite_le A B C x y :
  finite_le A x -> finite_le B y ->
  A + B < 2 ^ 2097 -> A + B + 2 ^ 2044 <= C ->
  finite_le C (x + y)%float.
Proof.
  intros HA HB Hlt HC. apply finite_le_sf. rewrite add_spec.
  eapply sf_le_mono; [exact HC|].
  exact (SFadd_bound 1074 eq_refl _ _ A B
           (Prim2SF_valid x) (Prim2SF_valid y) HA HB Hlt).
Qed.

Lemma sub_finite_le A B C x y :
  finite_le A x -> finite_le B y ->
  A + B < 2 ^ 2097 -> A + B + 2 ^ 2044 <= C ->
  finite_le C (x - y)%float.
Proof.
  intros HA HB Hlt HC. apply finite_le_sf. rewrite sub_spec.
  eapply sf_le_mono; [exact HC|].
  exact (SFsub_bound 1074 eq_refl _ _ A B
           (Prim2SF_valid x) (Prim2SF_valid y) HA HB Hlt).
Qed.

Lemma mul_finite_le A B C x y :
  finite_le A x -> finite_le B y ->
  A * B < 2 ^ 3171 -> A * B + 2 ^ 3118 <= C * 2 ^ 1074 ->
  finite_le C (x * y)%float.
Proof.
  intros HA HB Hlt HC. apply finite_le_sf.
  apply (sf_le_rescale 1074 eq_refl _ C (A * B + 2 ^ 3118));
    [apply Prim2SF_valid| |exact HC].
  rewrite mul_spec.
  exact (SFmul_bound 1074 eq_refl _ _ A B
           (Prim2SF_valid x) (Prim2SF_valid y) HA HB Hlt).
Qed.

End PrimitiveBounds.

(** * The methods and their bodies *)

(** Executing the transcribed bodies is what the methods compute. *)
Lemma exec_body_F s H W g :
  exec (body_F s) H W g = forward_F (instance s) H W g.
Proof. destruct s; reflexivity. Qed.

Lemma exec_body_M s H W g :
  exec (body_M s) H W g = forward_M (instance s) H W g.
Proof. destruct s; reflexivity. Qed.

Lemma exec_body s sex H W g :
  exec (body s sex) H W g = call (instance s) sex H W g.
Proof.
  unfold body, call.
  destruct (sex =? Sex.F)%Z; [apply exec_body_F|].
  destruct (sex =? Sex.M)%Z; [apply exec_body_M|reflexivity].
Qed.

Lemma Sex_valid_cases sex : Sex.valid sex = true -> sex = Sex.F \/ sex = Sex.M.
Proof.
  unfold Sex.valid. rewrite orb_true_iff, !Z.eqb_eq. tauto.
Qed.

Lemma Sex_invalid_cases sex :
  Sex.valid sex = false <-> sex <> Sex.M /\ sex <> Sex.F.
Proof.
  unfold Sex.valid. rewrite orb_false_iff, !Z.eqb_neq. tauto.
Qed.

Lemma call_invalid self sex H W g :
  Sex.valid sex = false ->
  call self sex H W g = Throw (invalid_argument "Invalid sex").
Proof.
  intros Hs. apply Sex_invalid_cases in Hs. destruct Hs as [HM HF].
  unfold call. apply Z.eqb_neq in HM, HF. now rewrite HF, HM.
Qed.

(** Evaluation does not depend on a parameter the expression does not read. *)
Lemma eval_ignores_g e H W g1 g2 :
  mentions_g e = false -> eval e H W g1 = eval e H W g2.
Proof.
  induction e as [c| | | |a IHa b IHb|a IHa b IHb|a IHa b IHb|a IHa b IHb];
    cbn [mentions_g eval]; try reflexivity; try discriminate;
    rewrite orb_false_iff; intros [Ha Hb];
    now rewrite (IHa Ha), (IHb Hb).
Qed.

Lemma exec_ignores_g b H W g1 g2 :
  reads_g b = false -> exec b H W g1 = exec b H W g2.
Proof.
  destruct b as [e|x]; cbn [reads_g exec]; [|reflexivity].
  intros He. now rewrite (eval_ignores_g e H W g1 g2 He).
Qed.

Lemma divides_by_zero_has_div e H W g :
  divides_by_zero e H W g = true -> has_div e = true.
Proof.
  induction e as [c| | | |a IHa b IHb|a IHa b IHb|a IHa b IHb|a IHa b IHb];
    cbn [divides_by_zero has_div]; try discriminate; try reflexivity;
    rewrite !orb_true_iff; intuition.
Qed.

(** A division by zero anywhere in an expression whose divisors are
    division-free makes the whole expression infinite or NaN. *)
Lemma eval_divides_by_zero e H W g :
  plain_divisors e = true ->
  divides_by_zero e H W g = true ->
  inf_or_nan (eval e H W g) = true.
Proof.
  induction e as [c| | | |a IHa b IHb|a IHa b IHb|a IHa b IHb|a IHa b IHb];
    cbn [plain_divisors divides_by_zero eval]; try discriminate;
    rewrite ?andb_true_iff, ?orb_true_iff; intros [Pa Pb] Hz.
  - apply add_inf_or_nan. destruct Hz; auto.
  - apply sub_inf_or_nan. destruct Hz; auto.
  - apply mul_inf_or_nan. destruct Hz; auto.
  - destruct Hz as [[Hz|Hz]|Hz].
    + now apply div_zero_inf_or_nan.
    + apply div_inf_or_nan_l. auto.
    + apply divides_by_zero_has_div in Hz. rewrite Hz in Pb. discriminate.
Qed.

Lemma plain_bodies s :
  plain (body_F s) = true /\ plain (body_M s) = true.
Proof. destruct s; split; reflexivity. Qed.

Lemma exec_zero_divisor b H W g :
  plain b = true ->
  zero_divisor b H W g = true ->
  exists r, exec b H W g = Return r /\ inf_or_nan r = true.
Proof.
  destruct b as [e|x]; cbn [zero_divisor exec]; [|discriminate].
  intros P Hz. eexists; split; [reflexivity|]. now apply eval_divides_by_zero.
Qed.

(** Expressions of the shape [c0 - c1 * W + c2 * H] with small
    coefficients cannot overflow: [|c0| <= 1], [|c1| <= 2^-7] and
    [|c2| <= 15/32] keep the result below [2^1023] for all finite [H]
    and [W]. *)
Section AffineNoOverflow.
Variables c0 c1 c2 : float.
Hypothesis Hc0 : finite_le (2 ^ 1074) c0.
Hypothesis Hc1 : finite_le (2 ^ 1067) c1.
Hypothesis Hc2 : finite_le (15 * 2 ^ 1069) c2.

Lemma affine_finite H W :
  is_finite H = true -> is_finite W = true ->
  is_finite (c0 - c1 * W + c2 * H) = true.
Proof.
  intros HH HW.
  apply is_finite_finite_le in HH, HW.
  assert (Ha : finite_le (2 ^ 2091 + 2 ^ 2044) (c1 * W)).
  { apply (mul_finite_le (2 ^ 1067) (2 ^ 2098));
      [exact Hc1|exact HW|big_arith|big_arith]. }
  assert (Ht : finite_le (2 ^ 2092) (c0 - c1 * W)).
  { apply (sub_finite_le (2 ^ 1074) (2 ^ 2091 + 2 ^ 2044));
      [exact Hc0|exact Ha|big_arith|big_arith]. }
  assert (Hb : finite_le (15 * 2 ^ 2093 + 2 ^ 2044) (c2 * H)).
  { apply (mul_finite_le (15 * 2 ^ 1069) (2 ^ 2098));
      [exact Hc2|exact HH|big_arith|big_arith]. }
  apply (finite_le_is_finite (2 ^ 2098)).
  apply (add_finite_le (2 ^ 2092) (15 * 2 ^ 2093 + 2 ^ 2044));
    [exact Ht|exact Hb|big_arith|big_arith].
Qed.

End AffineNoOverflow.

Lemma Seidl_F_finite H W :
  is_finite H = true -> is_finite W = true ->
  is_finite (0.31223 - 0.006446 * W + 0.4466 * H) = true.
Proof. apply affine_finite; literal_le. Qed.

Lemma Seidl_M_finite H W :
  is_finite H = true -> is_finite W = true ->
  is_finite (0.31608 - 0.004821 * W + 0.4632 * H) = true.
Proof. apply affine_finite; literal_le. Qed.

Lemma body_at_F s : body s Sex.F = body_F s.
Proof. reflexivity. Qed.

Lemma body_at_M s : body s Sex.M = body_M s.
Proof. reflexivity. Qed.

Lemma zero_divisor_W s sex H W g :
  Sex.valid sex = true -> s = SWatson \/ s = SAverage ->
  is_zero W = true -> zero_divisor (body s sex) H W g = true.
Proof.
  intros Hs Hc HW.
  destruct (Sex_valid_cases sex Hs) as [-> | ->], Hc as [-> | ->];
    rewrite ?body_at_F, ?body_at_M;
    cbn [body_F body_M zero_divisor divides_by_zero eval];
    rewrite HW; cbn [orb]; now rewrite ?orb_true_r.
Qed.

Lemma zero_divisor_H s sex H W g :
  Sex.valid sex = true -> s = SForrest \/ s = SAverage ->
  is_zero H = true -> zero_divisor (body s sex) H W g = true.
Proof.
  intros Hs Hc HH.
  pose proof (mul_zero_zero H H HH HH) as HHH.
  destruct (Sex_valid_cases sex Hs) as [-> | ->], Hc as [-> | ->];
    rewrite ?body_at_F, ?body_at_M;
    cbn [body_F body_M zero_divisor divides_by_zero eval];
    rewrite HHH; cbn [orb]; now rewrite ?orb_true_r.
Qed.

Lemma call_zero_divisor s sex H W g :
  zero_divisor (body s sex) H W g = true ->
  exists r, call (instance s) sex H W g = Return r /\ inf_or_nan r = true.
Proof.
  intros Hz. rewrite <- exec_body. apply exec_zero_divisor; [|exact Hz].
  unfold body. destruct (plain_bodies s) as [PF PM].
  destruct (sex =? Sex.F)%Z; [exact PF|].
  destruct (sex =? Sex.M)%Z; [exact PM|reflexivity].
Qed.

(** * The claims *)

(** C1.  For each of the six strategies and each of the two sexes, the
    pair (Ulrich, female) excepted, the formula table has an entry, and
    [call] returns the double that entry denotes at the same height,
    weight and adjustment. *)
Theorem call_matches_table s sex H W g :
  Sex.valid sex = true ->
  (s, sex) <> (SUlrich, Sex.F) ->
  exists f, Table.entry s sex = Some f
            /\ call (instance s) sex H W g = Return (f H W g).
Proof.
  intros Hs Hne.
  destruct (Sex_valid_cases sex Hs) as [-> | ->].
  - destruct s; try (eexists; split; reflexivity). now elim Hne.
  - destruct s; eexists; split; reflexivity.
Qed.

Lemma call_matches_table_witness :
  Sex.valid Sex.M = true
  /\ (SAverage, Sex.M) <> (SUlrich, Sex.F)
  /\ exists f, Table.entry SAverage Sex.M = Some f
               /\ call (instance SAverage) Sex.M sample_H sample_W sample_g
                  = Return (f sample_H sample_W sample_g).
Proof.
  split; [reflexivity|]. split; [discriminate|].
  apply (call_matches_table SAverage Sex.M sample_H sample_W sample_g);
    [reflexivity|discriminate].
Defined.

(** C2.  For every height, weight and adjustment, Ulrich's female branch
    throws [std::invalid_argument("No estimator available")] and returns
    nothing, from [forward_F] and from [call] alike, and its male branch
    returns [0.715 - 0.00462*W + 0.22*H]. *)
Theorem Ulrich_female_unavailable_male_available H W g :
  forward_F Ulrich H W g = Throw (invalid_argument "No estimator available")
  /\ call Ulrich Sex.F H W g
     = Throw (invalid_argument "No estimator available")
  /\ forward_M Ulrich H W g = Return (0.715 - 0.00462 * W + 0.22 * H)
  /\ call Ulrich Sex.M H W g = Return (0.715 - 0.00462 * W + 0.22 * H).
Proof. repeat split. Qed.

(** C3.  For every strategy and every height, weight and adjustment,
    [call] throws [std::invalid_argument("Invalid sex")] exactly when the
    tag is neither [Sex::M] nor [Sex::F]. *)
Theorem call_invalid_sex_iff s sex H W g :
  call (instance s) sex H W g = Throw (invalid_argument "Invalid sex")
  <-> sex <> Sex.M /\ sex <> Sex.F.
Proof.
  split.
  - intros Hc. apply Sex_invalid_cases.
    destruct (Sex.valid sex) eqn:Hs; [exfalso|reflexivity].
    destruct (Sex_valid_cases sex Hs) as [-> | ->]; destruct s;
      discriminate Hc.
  - intros Hs. apply call_invalid. now apply Sex_invalid_cases.
Qed.

(** C4, as amended.  The exception thrown for a bad tag and the one
    thrown by Ulrich's female branch have the same class,
    [std::invalid_argument], so one handler catches both; they differ in
    the text of [what()] only. *)
Theorem errors_share_class_differ_in_message
  s sex H W g H' W' g' e1 e2 :
  Sex.valid sex = false ->
  call (instance s) sex H W g = Throw e1 ->
  call Ulrich Sex.F H' W' g' = Throw e2 ->
  exn_class e1 = std_invalid_argument
  /\ exn_class e2 = std_invalid_argument
  /\ derives_from (exn_class e1) std_invalid_argument = true
  /\ derives_from (exn_class e2) std_invalid_argument = true
  /\ what e1 = "Invalid sex"%string
  /\ what e2 = "No estimator available"%string
  /\ e1 <> e2.
Proof.
  intros Hs H1 H2.
  rewrite (call_invalid _ _ _ _ _ Hs) in H1.
  injection H1 as <-. injection H2 as <-.
  repeat split. discriminate.
Qed.

Lemma errors_share_class_differ_in_message_witness :
  Sex.valid 2%Z = false
  /\ exists e1 e2,
      call (instance SWatson) 2%Z sample_H sample_W sample_g = Throw e1
      /\ call Ulrich Sex.F sample_H sample_W sample_g = Throw e2
      /\ exn_class e1 = std_invalid_argument
      /\ exn_class e2 = std_invalid_argument
      /\ derives_from (exn_class e1) std_invalid_argument = true
      /\ derives_from (exn_class e2) std_invalid_argument = true
      /\ what e1 = "Invalid sex"%string
      /\ what e2 = "No estimator available"%string
      /\ e1 <> e2.
Proof.
  split; [reflexivity|].
  exists (invalid_argument "Invalid sex"),
         (invalid_argument "No estimator available").
  split; [reflexivity|]. split; [reflexivity|].
  apply (errors_share_class_differ_in_message
           SWatson 2%Z sample_H sample_W sample_g sample_H sample_W sample_g);
    reflexivity.
Defined.

(** C4, as stated, fails: at the tag 2 the exception of [call] and the
    exception of Ulrich's female branch are of one and the same class. *)
Lemma error_kinds_not_distinct :
  exists e1 e2,
    call (instance SWidmark) 2%Z sample_H sample_W sample_g = Throw e1
    /\ call (instance SUlrich) Sex.F sample_H sample_W sample_g = Throw e2
    /\ exn_class e1 = exn_class e2.
Proof.
  exists (invalid_argument "Invalid sex"),
         (invalid_argument "No estimator available").
  repeat split.
Qed.

(** C5.  [Watson.call(Female, 1.70, 0.0, 18.0)] returns [+infinity] and
    throws nothing.  In general, whenever a divisor in the selected
    formula evaluates to zero, [call] returns a value, and that value is
    an infinity or NaN; a zero weight does so for Watson and Average, a
    zero height for Forrest and Average. *)
Theorem division_by_zero_is_not_an_error :
  call Watson Sex.F sample_H 0 sample_g = Return infinity
  /\ (forall s sex H W g,
        zero_divisor (body s sex) H W g = true ->
        exists r, call (instance s) sex H W g = Return r
                  /\ inf_or_nan r = true)
  /\ (forall s sex H W g,
        Sex.valid sex = true -> s = SWatson \/ s = SAverage ->
        is_zero W = true ->
        exists r, call (instance s) sex H W g = Return r
                  /\ inf_or_nan r = true)
  /\ (forall s sex H W g,
        Sex.valid sex = true -> s = SForrest \/ s = SAverage ->
        is_zero H = true ->
        exists r, call (instance s) sex H W g = Return r
                  /\ inf_or_nan r = true).
Proof.
  split; [vm_compute; reflexivity|].
  split; [exact call_zero_divisor|].
  split; intros s sex H W g Hs Hc Hz; apply call_zero_divisor.
  - now apply zero_divisor_W.
  - now apply zero_divisor_H.
Qed.

Lemma Return_inj {A : Type} (a b : A) : Return a = Return b -> a = b.
Proof. now injection 1. Qed.

Lemma float_neq (a b : float) : Leibniz.eqb a b = false -> a <> b.
Proof. intros Hb E. apply Leibniz.eqb_spec in E. congruence. Qed.

(** The adjustment changes the male results of Watson and Average. *)
Lemma adjustment_matters s :
  s = SWatson \/ s = SAverage ->
  call (instance s) Sex.M sample_H sample_W 18
  <> call (instance s) Sex.M sample_H sample_W 19.
Proof.
  intros [-> | ->] E; apply Return_inj in E; revert E;
    apply float_neq; vm_compute; reflexivity.
Qed.

Lemma reads_g_body s sex :
  ~ (sex = Sex.M /\ (s = SWatson \/ s = SAverage)) ->
  reads_g (body s sex) = false.
Proof.
  intros Hn. unfold body.
  destruct (Z.eqb_spec sex Sex.F) as [->|HF]; [destruct s; reflexivity|].
  destruct (Z.eqb_spec sex Sex.M) as [->|HM]; [|reflexivity].
  destruct s; try reflexivity; elim Hn; auto.
Qed.

(** C6.  The result of [call] is the same for every two values of the
    adjustment exactly for the branches other than Watson male and
    Average male. *)
Theorem adjustment_used_only_by_Watson_M_and_Average_M s sex :
  (forall H W g1 g2,
      call (instance s) sex H W g1 = call (instance s) sex H W g2)
  <-> ~ (sex = Sex.M /\ (s = SWatson \/ s = SAverage)).
Proof.
  split.
  - intros Heq [-> Hs].
    exact (adjustment_matters s Hs (Heq sample_H sample_W 18 19)).
  - intros Hn H W g1 g2. rewrite <- !exec_body.
    apply exec_ignores_g. now apply reads_g_body.
Qed.

(** ** Determinism and absence of effects *)

(** An arithmetic expression has its value, whatever the order of
    evaluation, and leaves the world as it found it. *)
Lemma eval_rel_value a e : forall v w x w',
  value e a = Some v -> eval_rel a w e x w' -> x = v /\ w' = w.
Proof.
  induction e as [c|p|o e1 IH1 e2 IH2|y|y e|f]; cbn [value];
    intros v w x w' Hv Hr; try discriminate Hv.
  - inversion Hr; subst. injection Hv as <-. now split.
  - inversion Hr; subst. injection Hv as <-. now split.
  - destruct (value e1 a) as [v1|] eqn:E1; [|discriminate Hv].
    destruct (value e2 a) as [v2|] eqn:E2; [|discriminate Hv].
    injection Hv as <-.
    inversion Hr as [| |w0 w1 w2 o0 a1 a2 x1 x2 R1 R2
                        |w0 w1 w2 o0 a1 a2 x1 x2 R2 R1| | |]; subst.
    + destruct (IH1 _ _ _ _ eq_refl R1) as [-> ->].
      destruct (IH2 _ _ _ _ eq_refl R2) as [-> ->]. now split.
    + destruct (IH2 _ _ _ _ eq_refl R2) as [-> ->].
      destruct (IH1 _ _ _ _ eq_refl R1) as [-> ->]. now split.
Qed.

Lemma value_eval_rel a w e : forall v,
  value e a = Some v -> eval_rel a w e v w.
Proof.
  induction e as [c|p|o e1 IH1 e2 IH2|y|y e|f]; cbn [value];
    intros v Hv; try discriminate Hv.
  - injection Hv as <-. constructor.
  - injection Hv as <-. constructor.
  - destruct (value e1 a) as [v1|]; [|discriminate Hv].
    destruct (value e2 a) as [v2|]; [|discriminate Hv].
    injection Hv as <-. eapply ev_bin_lr; eauto.
Qed.

Lemma exec_rel_plain vt sex a k o0 w o w' :
  plain_outcome k a = Some o0 ->
  exec_rel vt sex a w k o w' -> o = o0 /\ w' = w.
Proof.
  destruct k as [e|x| | | |]; cbn [plain_outcome]; try discriminate.
  - destruct (value e a) as [v|] eqn:Ev; [|discriminate].
    intros [= <-] Hr. inversion Hr as [w0 w1 e0 x Re| | | | | |]; subst.
    destruct (eval_rel_value a e v _ _ _ Ev Re) as [-> ->]. now split.
  - intros [= <-] Hr. inversion Hr; subst. now split.
Qed.

Lemma plain_exec_rel vt sex a k o0 w :
  plain_outcome k a = Some o0 -> exec_rel vt sex a w k o0 w.
Proof.
  destruct k as [e|x| | | |]; cbn [plain_outcome]; try discriminate.
  - destruct (value e a) as [v|] eqn:Ev; [|discriminate].
    intros [= <-]. constructor. now apply value_eval_rel.
  - intros [= <-]. constructor.
Qed.

(** Each transcribed body is plain, and its outcome is that of the
    method of the same class. *)
Lemma vtable_plain s m H W g :
  plain_outcome (vtable s m) (H, W, g)
  = Some (method_of m (instance s) H W g).
Proof. destruct s, m; reflexivity. Qed.

Lemma call_dispatch s sex H W g :
  call (instance s) sex H W g
  = if (sex =? Sex.F)%Z then method_of m_forward_F (instance s) H W g
    else if (sex =? Sex.M)%Z then method_of m_forward_M (instance s) H W g
    else Throw (invalid_argument "Invalid sex").
Proof. reflexivity. Qed.

Lemma operator_call_runs s sex H W g w :
  exec_rel (vtable s) sex (H, W, g) w cxx_operator_call
    (call (instance s) sex H W g) w.
Proof.
  rewrite call_dispatch. unfold cxx_operator_call.
  destruct (Z.eqb_spec sex Sex.F) as [EF|NF].
  - apply ex_if_eq; [exact EF|]. apply ex_virtual.
    apply plain_exec_rel, vtable_plain.
  - apply ex_if_neq; [exact NF|].
    destruct (Z.eqb_spec sex Sex.M) as [EM|NM].
    + apply ex_if_eq; [exact EM|]. apply ex_virtual.
      apply plain_exec_rel, vtable_plain.
    + apply ex_if_neq; [exact NM|]. constructor.
Qed.

Lemma operator_call_sound s sex H W g w o w' :
  exec_rel (vtable s) sex (H, W, g) w cxx_operator_call o w' ->
  o = call (instance s) sex H W g /\ w' = w.
Proof.
  rewrite call_dispatch. unfold cxx_operator_call. intros Hr.
  inversion Hr as [| | | |? ? ? ? ? ? EF R|? ? ? ? ? ? NF R|]; subst.
  - rewrite Z.eqb_refl. inversion R; subst.
    eapply exec_rel_plain; [apply vtable_plain|eassumption].
  - rewrite (proj2 (Z.eqb_neq _ _) NF).
    inversion R as [| | | |? ? ? ? ? ? EM R'|? ? ? ? ? ? NM R'|]; subst.
    + rewrite Z.eqb_refl. inversion R'; subst.
      eapply exec_rel_plain; [apply vtable_plain|eassumption].
    + rewrite (proj2 (Z.eqb_neq _ _) NM). inversion R'; subst. now split.
Qed.

(** The fragment does tell such bodies from others: a body that reads a
    variable depends on the world, a body that calls an external
    function has more than one outcome, and a body that assigns changes
    the world. *)
Lemma load_body_depends_on_world vt sex a w1 w2 o1 o2 w1' w2' :
  store w1 "scale" <> store w2 "scale" ->
  exec_rel vt sex a w1 (TReturn (ELoad "scale")) o1 w1' ->
  exec_rel vt sex a w2 (TReturn (ELoad "scale")) o2 w2' ->
  o1 <> o2.
Proof.
  intros Hne R1 R2.
  inversion R1 as [? ? ? ? E1| | | | | |]; subst. inversion E1; subst.
  inversion R2 as [? ? ? ? E2| | | | | |]; subst. inversion E2; subst.
  intros E. apply Return_inj in E. contradiction.
Qed.

Lemma extern_body_not_deterministic vt sex a w :
  exists o1 o2,
    exec_rel vt sex a w (TReturn (EExtern "rand")) o1 w
    /\ exec_rel vt sex a w (TReturn (EExtern "rand")) o2 w
    /\ o1 <> o2.
Proof.
  exists (Return 0), (Return 1). repeat split; try (do 2 constructor).
  intros E. apply Return_inj in E. revert E. apply float_neq. reflexivity.
Qed.

Lemma store_body_changes_world vt sex a w :
  store w "calls" = 0 ->
  exists o w',
    exec_rel vt sex a w (TReturn (EStore "calls" (ELit 1))) o w'
    /\ w' <> w.
Proof.
  intros H0. eexists _, _. split; [do 3 constructor|].
  intros E. apply (f_equal (fun x => store x "calls")) in E.
  cbn in E. rewrite H0 in E. revert E. apply float_neq. reflexivity.
Qed.

(** C7.  In the fragment of C++ with effects, [operator()] and the two
    virtual methods of every strategy complete from every world; all
    their runs, from whatever worlds they start, end with one and the
    same outcome, the one the Rocq functions [call], [forward_F] and
    [forward_M] compute, equal bit for bit when it is a return; and each
    run leaves the world, that is every variable and what has been
    printed, exactly as it found it. *)
Theorem call_deterministic_and_effect_free s sex H W g w1 w2 :
  (exists o, exec_rel (vtable s) sex (H, W, g) w1 cxx_operator_call o w1)
  /\ (forall m,
        exists o, exec_rel (vtable s) sex (H, W, g) w1 (vtable s m) o w1)
  /\ (forall o1 w1' o2 w2',
        exec_rel (vtable s) sex (H, W, g) w1 cxx_operator_call o1 w1' ->
        exec_rel (vtable s) sex (H, W, g) w2 cxx_operator_call o2 w2' ->
        o1 = o2 /\ o1 = call (instance s) sex H W g
        /\ w1' = w1 /\ w2' = w2
        /\ forall r1 r2, o1 = Return r1 -> o2 = Return r2 ->
                         Leibniz.eqb r1 r2 = true)
  /\ (forall m o1 w1' o2 w2',
        exec_rel (vtable s) sex (H, W, g) w1 (vtable s m) o1 w1' ->
        exec_rel (vtable s) sex (H, W, g) w2 (vtable s m) o2 w2' ->
        o1 = o2 /\ o1 = method_of m (instance s) H W g
        /\ w1' = w1 /\ w2' = w2).
Proof.
  split; [eexists; apply operator_call_runs|].
  split; [intros m; eexists; apply plain_exec_rel, vtable_plain|].
  split.
  - intros o1 w1' o2 w2' R1 R2.
    destruct (operator_call_sound _ _ _ _ _ _ _ _ R1) as [-> ->].
    destruct (operator_call_sound _ _ _ _ _ _ _ _ R2) as [-> ->].
    repeat split. intros r1 r2 E1 E2. rewrite E1 in E2.
    apply Return_inj in E2. now apply Leibniz.eqb_spec.
  - intros m o1 w1' o2 w2' R1 R2.
    destruct (exec_rel_plain _ _ _ _ _ _ _ _ (vtable_plain s m H W g) R1)
      as [-> ->].
    destruct (exec_rel_plain _ _ _ _ _ _ _ _ (vtable_plain s m H W g) R2)
      as [-> ->].
    repeat split.
Qed.

(** C8.  [Widmark.call(Male, 1.70, 70.0, 18.0)] is 0.68 and
    [Widmark.call(Female, 1.70, 70.0, 18.0)] is 0.55, and the two
    branches return these constants for every input. *)
Theorem Widmark_constants :
  call Widmark Sex.M sample_H sample_W sample_g = Return 0.68
  /\ call Widmark Sex.F sample_H sample_W sample_g = Return 0.55
  /\ forall H W g,
      forward_M Widmark H W g = Return 0.68
      /\ forward_F Widmark H W g = Return 0.55
      /\ call Widmark Sex.M H W g = Return 0.68
      /\ call Widmark Sex.F H W g = Return 0.55.
Proof. repeat split. Qed.

(** C9, as stated, fails: not every call of the driver passes the
    height 1.70 with the weight 70 and the adjustment 18; none does. *)
Lemma main_does_not_pass_height_1_70 :
  forallb (passes sample_H sample_W sample_g)
    (invocations (snd (main []))) = false
  /\ existsb (passes sample_H sample_W sample_g)
       (invocations (snd (main []))) = false.
Proof. split; vm_compute; reflexivity. Qed.

(** C9, as amended.  The driver calls each strategy once per sex, every
    time with the height 170.0, the weight 70.0 and the adjustment 18.0,
    prints the value of every call that returns, and returns 0. *)
Theorem main_passes_170_70_18 :
  fst (main []) = Return 0%Z
  /\ map (fun i => (inv_strategy i, inv_sex i)) (invocations (snd (main [])))
     = flat_map (fun s => [(s, Sex.F); (s, Sex.M)]) strategies
  /\ forallb (passes 170.0 70.0 18.0) (invocations (snd (main []))) = true
  /\ printed_doubles (printed (snd (main [])))
     = returned (map replay (invocations (snd (main [])))).
Proof. repeat split; vm_compute; reflexivity. Qed.

(** C10.  Neither branch of Widmark and of Seidl contains a division,
    and every literal in them is finite; for finite height, weight and
    adjustment, zero included, their [call] returns a finite double.  At
    a zero height and a zero weight Watson, Forrest and Average return an
    infinity or NaN instead. *)
Theorem Widmark_Seidl_return_finite s sex H W g :
  s = SWidmark \/ s = SSeidl ->
  Sex.valid sex = true ->
  is_finite H = true -> is_finite W = true -> is_finite g = true ->
  divides (body s sex) = false
  /\ finite_literals (body s sex) = true
  /\ (exists r, call (instance s) sex H W g = Return r /\ is_finite r = true)
  /\ (is_zero H = true -> is_zero W = true ->
      forall s', s' = SWatson \/ s' = SForrest \/ s' = SAverage ->
      exists r', call (instance s') sex H W g = Return r'
                 /\ inf_or_nan r' = true).
Proof.
  intros Hc Hs HH HW Hg.
  split; [|split; [|split]].
  - destruct (Sex_valid_cases sex Hs) as [-> | ->], Hc as [-> | ->];
      reflexivity.
  - destruct (Sex_valid_cases sex Hs) as [-> | ->], Hc as [-> | ->];
      vm_compute; reflexivity.
  - destruct (Sex_valid_cases sex Hs) as [-> | ->], Hc as [-> | ->];
      (eexists; split; [reflexivity|]).
    + reflexivity.
    + now apply Seidl_F_finite.
    + reflexivity.
    + now apply Seidl_M_finite.
  - intros ZH ZW s' [-> | [-> | ->]]; apply call_zero_divisor.
    + apply zero_divisor_W; auto.
    + apply zero_divisor_H; auto.
    + apply zero_divisor_W; auto.
Qed.

Lemma Widmark_Seidl_return_finite_witness :
  (SSeidl = SWidmark \/ SSeidl = SSeidl)
  /\ Sex.valid Sex.F = true
  /\ is_finite 0 = true /\ is_finite 0 = true /\ is_finite sample_g = true
  /\ divides (body SSeidl Sex.F) = false
  /\ finite_literals (body SSeidl Sex.F) = true
  /\ (exists r, call (instance SSeidl) Sex.F 0 0 sample_g = Return r
                /\ is_finite r = true)
  /\ (is_zero 0 = true -> is_zero 0 = true ->
      forall s', s' = SWatson \/ s' = SForrest \/ s' = SAverage ->
      exists r', call (instance s') Sex.F 0 0 sample_g = Return r'
                 /\ inf_or_nan r' = true).
Proof.
  split; [right; reflexivity|]. split; [reflexivity|].
  split; [reflexivity|]. split; [reflexivity|]. split; [reflexivity|].
  apply (Widmark_Seidl_return_finite SSeidl Sex.F 0 0 sample_g);
    [right; reflexivity|reflexivity|reflexivity|reflexivity|reflexivity].
Defined.

(** * Further properties of the strategies *)

(** ** Which exceptions [call] can throw *)

(** X1.  [call] throws in two situations only, whatever the three
    doubles are: for a tag that is not an enumerator it throws
    [std::invalid_argument("Invalid sex")], and for Ulrich with the tag
    [Sex::F] it throws [std::invalid_argument("No estimator available")].
    Every other call returns, also on infinite and NaN arguments. *)
Theorem call_throws_iff s sex H W g e :
  call (instance s) sex H W g = Throw e
  <-> (Sex.valid sex = false /\ e = invalid_argument "Invalid sex")
      \/ (s = SUlrich /\ sex = Sex.F
          /\ e = invalid_argument "No estimator available").
Proof.
  split.
  - intros Hc. destruct (Sex.valid sex) eqn:Hs.
    + right. destruct (Sex_valid_cases sex Hs) as [-> | ->]; destruct s;
        try discriminate Hc.
      injection Hc as <-. repeat split.
    + left. rewrite (call_invalid _ _ _ _ _ Hs) in Hc.
      injection Hc as <-. now split.
  - intros [[Hs ->] | (-> & -> & ->)]; [now apply call_invalid|reflexivity].
Qed.

(** ** NaN arguments *)

Lemma add_nan x y :
  is_nan x = true \/ is_nan y = true -> is_nan (x + y) = true.
Proof. rewrite !is_nan_SF, add_spec. sf_cases x y. Qed.

Lemma sub_nan x y :
  is_nan x = true \/ is_nan y = true -> is_nan (x - y) = true.
Proof. rewrite !is_nan_SF, sub_spec. sf_cases x y. Qed.

Lemma mul_nan x y :
  is_nan x = true \/ is_nan y = true -> is_nan (x * y) = true.
Proof. rewrite !is_nan_SF, mul_spec. sf_cases x y. Qed.

Lemma div_nan x y :
  is_nan x = true \/ is_nan y = true -> is_nan (x / y) = true.
Proof. rewrite !is_nan_SF, div_spec. sf_cases x y. Qed.

Lemma eval_mentions_nan p e H W g :
  mentions p e = true -> is_nan (arg p (H, W, g)) = true ->
  is_nan (eval e H W g) = true.
Proof.
  intros Hm Hn.
  induction e as [c| | | |a IHa b IHb|a IHa b IHb|a IHa b IHb|a IHa b IHb];
    cbn [mentions eval] in *; try discriminate Hm;
    try (destruct p; try discriminate Hm; exact Hn);
    apply orb_true_iff in Hm;
    [apply add_nan|apply sub_nan|apply mul_nan|apply div_nan];
    destruct Hm; auto.
Qed.

(** X2.  No argument is validated: when the selected formula reads a
    parameter and the argument passed for it is NaN, [call] returns NaN
    and throws nothing. *)
Theorem nan_argument_gives_nan s sex p H W g :
  reads p (body s sex) = true ->
  is_nan (arg p (H, W, g)) = true ->
  exists r, call (instance s) sex H W g = Return r /\ is_nan r = true.
Proof.
  intros Hr Hn. rewrite <- exec_body.
  destruct (body s sex) as [e|x]; [|discriminate Hr].
  eexists; split; [reflexivity|]. now apply (eval_mentions_nan p).
Qed.

Lemma nan_argument_gives_nan_witness :
  reads Pg (body SWatson Sex.M) = true
  /\ is_nan (arg Pg (sample_H, sample_W, nan)) = true
  /\ exists r, call (instance SWatson) Sex.M sample_H sample_W nan = Return r
               /\ is_nan r = true.
Proof.
  split; [reflexivity|]. split; [reflexivity|].
  apply (nan_argument_gives_nan SWatson Sex.M Pg sample_H sample_W nan);
    reflexivity.
Defined.

(** ** Which parameters a result depends on *)

Lemma eval_set_arg p e H W g v :
  mentions p e = false ->
  eval e (arg PH (set_arg p v (H, W, g))) (arg PW (set_arg p v (H, W, g)))
         (arg Pg (set_arg p v (H, W, g)))
  = eval e H W g.
Proof.
  induction e as [c| | | |a IHa b IHb|a IHa b IHb|a IHa b IHb|a IHa b IHb];
    cbn [mentions eval]; intros Hm;
    try (destruct p; (reflexivity || discriminate Hm));
    apply orb_false_iff in Hm; destruct Hm as [Ha Hb];
    now rewrite (IHa Ha), (IHb Hb).
Qed.

Lemma call_args_set_arg s sex p a v :
  reads p (body s sex) = false ->
  call_args (instance s) sex (set_arg p v a) = call_args (instance s) sex a.
Proof.
  destruct a as [[H W] g]. intros Hr.
  assert (E : call_args (instance s) sex (set_arg p v (H, W, g))
              = exec (body s sex)
                  (arg PH (set_arg p v (H, W, g)))
                  (arg PW (set_arg p v (H, W, g)))
                  (arg Pg (set_arg p v (H, W, g))))
    by (rewrite exec_body; destruct p; reflexivity).
  rewrite E. cbn [call_args]. rewrite <- exec_body.
  destruct (body s sex) as [e|x]; cbn [exec reads] in *; [|reflexivity].
  now rewrite eval_set_arg.
Qed.

Lemma reads_valid p s sex :
  reads p (body s sex) = true -> sex = Sex.F \/ sex = Sex.M.
Proof.
  unfold body.
  destruct (Z.eqb_spec sex Sex.F) as [->|HF]; [now left|].
  destruct (Z.eqb_spec sex Sex.M) as [->|HM]; [now right|discriminate].
Qed.

Lemma call_args_changes s sex p :
  reads p (body s sex) = true ->
  call_args (instance s) sex (set_arg p 2 (sample_H, sample_W, sample_g))
  <> call_args (instance s) sex (sample_H, sample_W, sample_g).
Proof.
  intros Hr. destruct (reads_valid p s sex Hr) as [-> | ->];
    destruct s, p; try discriminate Hr;
    intros E; apply Return_inj in E; revert E;
    apply float_neq; vm_compute; reflexivity.
Qed.

(** X3.  The outcome of [call] is unaffected by replacing one of the
    three arguments, whatever the replacement and the other arguments,
    exactly when the selected body does not mention that parameter: no
    formula mentions a parameter without depending on it. *)
Theorem result_depends_on_exactly_the_parameters_read s sex p :
  (forall a v,
      call_args (instance s) sex (set_arg p v a)
      = call_args (instance s) sex a)
  <-> reads p (body s sex) = false.
Proof.
  split.
  - intros Hind. destruct (reads p (body s sex)) eqn:Hr; [|reflexivity].
    elim (call_args_changes s sex p Hr). apply Hind.
  - intros Hr a v. now apply call_args_set_arg.
Qed.

(** The parameters each branch reads. *)
Lemma reads_table s sex p :
  Sex.valid sex = true ->
  reads p (body s sex)
  = match s, p with
    | SWidmark, _ => false
    | SUlrich, Pg | SForrest, Pg | SSeidl, Pg => false
    | SUlrich, _ => (sex =? Sex.M)%Z
    | SWatson, Pg | SAverage, Pg => (sex =? Sex.M)%Z
    | _, _ => true
    end.
Proof.
  intros Hs. destruct (Sex_valid_cases sex Hs) as [-> | ->];
    destruct s, p; reflexivity.
Qed.

(** ** Finite results *)

Lemma Ulrich_M_finite H W :
  is_finite H = true -> is_finite W = true ->
  is_finite (0.715 - 0.00462 * W + 0.22 * H) = true.
Proof. apply affine_finite; literal_le. Qed.

(** X4.  Ulrich's male formula cannot overflow: for every finite height
    and weight, and any adjustment, [call] returns a finite double. *)
Theorem Ulrich_male_returns_finite H W g :
  is_finite H = true -> is_finite W = true ->
  exists r, call Ulrich Sex.M H W g = Return r /\ is_finite r = true.
Proof.
  intros HH HW. eexists; split; [reflexivity|]. now apply Ulrich_M_finite.
Qed.

Lemma Ulrich_male_returns_finite_witness :
  is_finite sample_H = true /\ is_finite sample_W = true
  /\ exists r, call Ulrich Sex.M sample_H sample_W sample_g = Return r
               /\ is_finite r = true.
Proof.
  split; [reflexivity|]. split; [reflexivity|].
  apply (Ulrich_male_returns_finite sample_H sample_W sample_g); reflexivity.
Defined.

Lemma inf_or_nan_not_finite x : inf_or_nan x = true -> is_finite x = false.
Proof.
  unfold inf_or_nan, is_finite. rewrite orb_comm. now intros ->.
Qed.

Lemma no_division_finite s sex H W g :
  Sex.valid sex = true -> (s, sex) <> (SUlrich, Sex.F) ->
  divides (body s sex) = false ->
  is_finite H = true -> is_finite W = true ->
  exists r, call (instance s) sex H W g = Return r /\ is_finite r = true.
Proof.
  intros Hs Hne Hd HH HW.
  destruct (Sex_valid_cases sex Hs) as [-> | ->]; destruct s;
    try discriminate Hd; try (now elim Hne);
    (eexists; split; [reflexivity|]);
    first [ reflexivity
          | now apply Seidl_F_finite
          | now apply Seidl_M_finite
          | now apply Ulrich_M_finite ].
Qed.

Lemma division_zero_divisor s sex g :
  Sex.valid sex = true ->
  divides (body s sex) = true ->
  zero_divisor (body s sex) 0 0 g = true.
Proof.
  intros Hs Hd.
  destruct (Sex_valid_cases sex Hs) as [-> | ->]; destruct s;
    try discriminate Hd;
    first [ apply zero_divisor_W; [reflexivity|solve [auto]|reflexivity]
          | apply zero_divisor_H; [reflexivity|solve [auto]|reflexivity] ].
Qed.

(** X5.  Among the branches that return, those whose [call] returns a
    finite double for all finite arguments are exactly those whose formula
    contains no division: both of Widmark and of Seidl, and Ulrich male. *)
Theorem finite_on_finite_inputs_iff_no_division s sex :
  Sex.valid sex = true -> (s, sex) <> (SUlrich, Sex.F) ->
  (forall H W g,
      is_finite H = true -> is_finite W = true -> is_finite g = true ->
      exists r, call (instance s) sex H W g = Return r
                /\ is_finite r = true)
  <-> divides (body s sex) = false.
Proof.
  intros Hs Hne. split.
  - intros Hfin. destruct (divides (body s sex)) eqn:Hd; [exfalso|reflexivity].
    destruct (call_zero_divisor s sex 0 0 0
                (division_zero_divisor s sex 0 Hs Hd)) as (r & Er & Ir).
    destruct (Hfin 0 0 0) as (r' & Er' & Fr'); try reflexivity.
    rewrite Er in Er'. apply Return_inj in Er'. subst r'.
    apply inf_or_nan_not_finite in Ir. congruence.
  - intros Hd H W g HH HW _. now apply no_division_finite.
Qed.

Lemma finite_on_finite_inputs_iff_no_division_witness :
  Sex.valid Sex.M = true /\ (SUlrich, Sex.M) <> (SUlrich, Sex.F)
  /\ ((forall H W g,
          is_finite H = true -> is_finite W = true -> is_finite g = true ->
          exists r, call (instance SUlrich) Sex.M H W g = Return r
                    /\ is_finite r = true)
      <-> divides (body SUlrich Sex.M) = false).
Proof.
  split; [reflexivity|]. split; [discriminate|].
  apply (finite_on_finite_inputs_iff_no_division SUlrich Sex.M);
    [reflexivity|discriminate].
Defined.

(** ** Forrest *)

Lemma square_opp H : (- H) * (- H) = H * H.
Proof.
  apply Prim2SF_inj. rewrite !mul_spec, opp_spec.
  destruct (Prim2SF H) as [[]|[]| |[] m e]; reflexivity.
Qed.

(** X6.  Forrest reads the height only through [H * H], so a height and
    its negation give the same outcome, for every tag, weight and
    adjustment. *)
Theorem Forrest_even_in_height sex H W g :
  call Forrest sex (- H) W g = call Forrest sex H W g.
Proof.
  unfold call.
  destruct (sex =? Sex.F)%Z; [cbn [Forrest forward_F]; now rewrite square_opp|].
  destruct (sex =? Sex.M)%Z; [cbn [Forrest forward_M]; now rewrite square_opp|].
  reflexivity.
Qed.

Lemma zero_weight_term c W y :
  is_finite c = true -> is_zero c = false ->
  is_zero W = true -> is_zero y = false -> is_nan y = false ->
  is_zero (c * W / y) = true.
Proof.
  rewrite is_finite_SF, !is_zero_SF, is_nan_SF, div_spec, mul_spec.
  destruct (Prim2SF c) as [[]|[]| |[] ? ?], (Prim2SF W) as [[]|[]| |[] ? ?],
    (Prim2SF y) as [[]|[]| |[] ? ?]; cbn; intuition discriminate.
Qed.

Lemma sub_zero_r c z :
  is_finite c = true -> is_zero c = false -> is_zero z = true -> c - z = c.
Proof.
  rewrite is_finite_SF, !is_zero_SF. intros Hf Hz Hzz.
  apply Prim2SF_inj. rewrite sub_spec.
  destruct (Prim2SF c) as [[]|[]| |[] ? ?], (Prim2SF z) as [[]|[]| |[] ? ?];
    cbn in *; try discriminate; reflexivity.
Qed.

(** X7.  In Forrest the weight is a dividend, not a divisor: at a zero
    weight, of either sign, the two branches return their intercepts
    0.8736 and 1.0178 exactly, provided [H * H] is neither zero nor NaN. *)
Theorem Forrest_zero_weight_returns_intercept H W g :
  is_zero W = true -> is_zero (H * H) = false -> is_nan (H * H) = false ->
  call Forrest Sex.F H W g = Return 0.8736
  /\ call Forrest Sex.M H W g = Return 1.0178.
Proof.
  intros HW Hz Hn. split.
  - change (Return (0.8736 - 0.0124 * W / (H * H)) = Return 0.8736).
    f_equal. apply sub_zero_r; try reflexivity.
    apply zero_weight_term; auto.
  - change (Return (1.0178 - 0.012127 * W / (H * H)) = Return 1.0178).
    f_equal. apply sub_zero_r; try reflexivity.
    apply zero_weight_term; auto.
Qed.

Lemma Forrest_zero_weight_returns_intercept_witness :
  is_zero 0 = true /\ is_zero (sample_H * sample_H) = false
  /\ is_nan (sample_H * sample_H) = false
  /\ call Forrest Sex.F sample_H 0 sample_g = Return 0.8736
  /\ call Forrest Sex.M sample_H 0 sample_g = Return 1.0178.
Proof.
  split; [reflexivity|]. split; [reflexivity|]. split; [reflexivity|].
  apply (Forrest_zero_weight_returns_intercept sample_H 0 sample_g);
    reflexivity.
Defined.

(** ** Zero height and zero weight together *)

Lemma zero_div_zero_nan x y :
  is_zero x = true -> is_zero y = true -> is_nan (x / y) = true.
Proof. rewrite !is_zero_SF, is_nan_SF, div_spec. sf_cases x y. Qed.

Lemma finite_mul_zero c W :
  is_finite c = true -> is_zero W = true -> is_zero (c * W) = true.
Proof. rewrite is_finite_SF, !is_zero_SF, mul_spec. sf_cases c W. Qed.

Lemma nonzero_div_zero_inf c y :
  is_finite c = true -> is_zero c = false -> is_zero y = true ->
  is_infinity (c / y) = true.
Proof.
  rewrite is_finite_SF, !is_zero_SF, is_infinity_SF, div_spec. sf_cases c y.
Qed.

Lemma finite_add_inf c y :
  is_finite c = true -> is_infinity y = true -> is_infinity (c + y) = true.
Proof. rewrite is_finite_SF, !is_infinity_SF, add_spec. sf_cases c y. Qed.

Lemma zero_mul_inf_nan W y :
  is_zero W = true -> is_infinity y = true -> is_nan (W * y) = true.
Proof.
  rewrite is_zero_SF, is_infinity_SF, is_nan_SF, mul_spec. sf_cases W y.
Qed.

Lemma Forrest_term_nan c H W :
  is_finite c = true -> is_zero H = true -> is_zero W = true ->
  is_nan (c * W / (H * H)) = true.
Proof.
  intros Hc HH HW. apply zero_div_zero_nan.
  - now apply finite_mul_zero.
  - now apply mul_zero_zero.
Qed.

Lemma Average_term_nan c d H W :
  is_finite c = true -> is_finite d = true -> is_zero d = false ->
  is_zero H = true -> is_zero W = true ->
  is_nan (W * (c + d / (H * H))) = true.
Proof.
  intros Hc Hd Hd0 HH HW. apply zero_mul_inf_nan; [exact HW|].
  apply finite_add_inf; [exact Hc|].
  apply nonzero_div_zero_inf; auto. now apply mul_zero_zero.
Qed.

(** X8.  When the height and the weight are both zero, of any signs,
    Forrest and Average return NaN, not an infinity, for both sexes and
    every adjustment. *)
Theorem Forrest_Average_nan_at_zero_zero s sex H W g :
  s = SForrest \/ s = SAverage -> Sex.valid sex = true ->
  is_zero H = true -> is_zero W = true ->
  exists r, call (instance s) sex H W g = Return r /\ is_nan r = true.
Proof.
  intros Hc Hs HH HW.
  destruct (Sex_valid_cases sex Hs) as [-> | ->], Hc as [-> | ->];
    (eexists; split; [reflexivity|]).
  - apply sub_nan. right. now apply Forrest_term_nan.
  - apply sub_nan. left. apply sub_nan. right. now apply Average_term_nan.
  - apply sub_nan. right. now apply Forrest_term_nan.
  - apply add_nan. left. apply sub_nan. right. now apply Average_term_nan.
Qed.

Lemma Forrest_Average_nan_at_zero_zero_witness :
  (SAverage = SForrest \/ SAverage = SAverage) /\ Sex.valid Sex.M = true
  /\ is_zero 0 = true /\ is_zero neg_zero = true
  /\ exists r, call (instance SAverage) Sex.M 0 neg_zero sample_g = Return r
               /\ is_nan r = true.
Proof.
  split; [right; reflexivity|]. split; [reflexivity|].
  split; [reflexivity|]. split; [reflexivity|].
  apply (Forrest_Average_nan_at_zero_zero SAverage Sex.M 0 neg_zero sample_g);
    [right; reflexivity|reflexivity|reflexivity|reflexivity].
Defined.
